(** * libp2p core: dial queue, identify, address manager, peer store, node lifecycle

    A shallow embedding of the parts of the libp2p sources that the
    specification's testable properties talk about, together with the
    theorems that settle those properties against the code.

    Asynchronous code is modelled by explicit state passing: an [async]
    method becomes a function from the component's state (and the answers of
    its collaborators) to the new state and an outcome, a rejected promise
    being the [inl] of a sum.  A promise shared by several callers is a cell of
    a promise store that all of them read. *)

From Stdlib Require Import ZArith NArith List Bool Lia.
From stdpp Require Import base option list gmap strings fin_maps sorting.

Set Default Proof Using "Type".
Set Warnings "-register-all".
Local Open Scope string_scope.
Local Open Scope list_scope.

(** ** Peer ids and multiaddrs

    [PeerId] and [Multiaddr] come from external packages.  A peer id is
    represented by its canonical string form ([peerId.toString()]), so
    [equals] is equality of strings.  A multiaddr is the list of its
    [stringTuples()]: protocol code and optional value.  Where the code only
    prints addresses (the dial queue, the peer store), the printer is a
    parameter of the model.  Where it also parses the strings back (the
    address manager), the library's [toString()] and [multiaddr(str)] being
    mutually inverse, a JS [Map] keyed by the string form is modelled by a
    container keyed by the tuple list. *)

Definition PeerIdStr := string.

Module Multiaddr.

Record Tuple := mkTuple { code : N; value : option string }.

#[global] Instance Tuple_eq_dec : EqDecision Tuple.
Proof. solve_decision. Defined.

Definition t := list Tuple.

(** Codes of the protocol table. *)
Definition CODE_IP4 : N := 4.
Definition CODE_TCP : N := 6.
Definition CODE_IP6 : N := 41.
Definition CODE_DNS4 : N := 54.
Definition CODE_DNS6 : N := 55.
Definition CODE_DNSADDR : N := 56.
Definition CODE_UNIX : N := 400.
Definition CODE_P2P : N := 421.

(** [protocols(code).path]: the only path protocol of the table is unix. *)
Definition path (c : N) : bool := (c =? CODE_UNIX)%N.

(** [ma.protos().pop()?.path === true] *)
Definition lastProtoIsPath (ma : t) : bool :=
  match last ma with
  | Some tu => path (code tu)
  | None => false
  end.

(** [ma.getPeerId()]: value of the last p2p tuple, if any. *)
Definition getPeerId (ma : t) : option PeerIdStr :=
  match last (filter (fun tu => code tu = CODE_P2P) ma) with
  | Some tu => value tu
  | None => None
  end.

(** The multiaddr [/p2p/<peerId>]. *)
Definition p2p (peerId : PeerIdStr) : t := [mkTuple CODE_P2P (Some peerId)].

(** [ma.encapsulate(other)] *)
Definition encapsulate (ma other : t) : t := ma ++ other.

(** [ma.decapsulate(other)] for a one-tuple [other]: everything from the
    last occurrence of the tuple onwards is dropped; the library throws when
    there is no occurrence (callers below only use it after [getPeerId]
    matched). *)
Fixpoint decapsulateTuple (ma : t) (tu : Tuple) : option t :=
  match ma with
  | [] => None
  | x :: rest =>
      match decapsulateTuple rest tu with
      | Some r => Some (x :: r)
      | None => if decide (x = tu) then Some [] else None
      end
  end.

(** [protocols(code).name] for the codes above. *)
Definition name (c : N) : string :=
  if (c =? CODE_IP4)%N then "ip4"
  else if (c =? CODE_TCP)%N then "tcp"
  else if (c =? CODE_IP6)%N then "ip6"
  else if (c =? CODE_DNS4)%N then "dns4"
  else if (c =? CODE_DNS6)%N then "dns6"
  else if (c =? CODE_DNSADDR)%N then "dnsaddr"
  else if (c =? CODE_UNIX)%N then "unix"
  else if (c =? CODE_P2P)%N then "p2p"
  else "unknown".

(** [ma.toString()]: [/name/value] for each tuple, [/name] when the
    protocol has no value. *)
Definition toString (ma : t) : string :=
  String.concat ""
    (map (fun tu => "/" +:+ name (code tu) +:+
                    match value tu with Some v => "/" +:+ v | None => "" end) ma).

End Multiaddr.

Abbreviation Multiaddr := Multiaddr.t.

(** ** Errors *)

Inductive ErrCode :=
| ERR_DIALED_SELF
| ERR_PEER_DIAL_INTERCEPTED
| ERR_NO_VALID_ADDRESSES
| ERR_TOO_MANY_ADDRESSES
| ERR_TRANSPORT_DIAL_FAILED
| ERR_TIMEOUT
| ERR_INVALID_PARAMETERS
| ERR_CONNECTION_ENDED
| ERR_INVALID_MESSAGE
| ERR_MISSING_PUBLIC_KEY
| ERR_INVALID_PEER
| ERR_NOT_FOUND
| ERR_OTHER (name : string).

#[global] Instance ErrCode_eq_dec : EqDecision ErrCode.
Proof. solve_decision. Defined.

(** JS errors as the code builds them: [new CodeError(message, code)],
    [new AbortError(message)], [new Error(message)], and the
    [AggregateError] that [Promise.any] rejects with. *)
Inductive Err :=
| CodeError (message : string) (c : ErrCode)
| AbortError (message : string)
| PlainError (message : string)
| AggregateError (errors : list Err).

Definition err_message (e : Err) : string :=
  match e with
  | CodeError m _ => m
  | AbortError m => m
  | PlainError m => m
  | AggregateError _ => "All promises were rejected"
  end.

Definition err_name (e : Err) : string :=
  match e with
  | CodeError _ _ => "CodeError"
  | AbortError _ => "AbortError"
  | PlainError _ => "Error"
  | AggregateError _ => "AggregateError"
  end.

Definition err_code (e : Err) : option ErrCode :=
  match e with
  | CodeError _ c => Some c
  | _ => None
  end.

(** ** Peer store: reading an entry ([bytesToPeer]) *)

Module PeerStoreRead.

Local Open Scope Z_scope.

Record PeerId := mkPeerId { pid : PeerIdStr; pidPublicKey : option string }.

(** A tag as decoded from the datastore: [expiry] is a bigint of
    milliseconds. *)
Record Tag := mkTag { tagValue : Z; expiry : option Z }.

Record AddressPB := mkAddressPB {
  pbMultiaddr : Multiaddr;
  pbIsCertified : option bool;
  pbLastFailure : option Z;
  pbLastSuccess : option Z
}.

(** The decoded protobuf ([PeerPB.decode(buf)]); [pbTags] lists the entries
    of the decoded [Map] in iteration order. *)
Record PeerPB := mkPeerPB {
  pbPublicKey : option string;
  pbAddresses : list AddressPB;
  pbProtocols : list string;
  pbMetadata : list (string * string);
  pbTags : list (string * Tag);
  pbPeerRecordEnvelope : option string
}.

Record Address := mkAddress {
  multiaddr : Multiaddr;
  isCertified : option bool;
  lastFailure : option Z;
  lastSuccess : option Z
}.

Record Peer := mkPeer {
  id : PeerId;
  addresses : list Address;
  protocols : list string;
  metadata : list (string * string);
  peerRecordEnvelope : option string;
  tags : gmap string Tag
}.

(** [tag.expiry != null && tag.expiry < now] *)
Definition expired (now : Z) (tag : Tag) : bool :=
  match expiry tag with
  | Some e => e <? now
  | None => false
  end.

(** The loop over [peer.tags.entries()]: an expired tag is skipped, any
    other is [set] in the result map. *)
Fixpoint collectTags (now : Z) (entries : list (string * Tag))
    (tags : gmap string Tag) : gmap string Tag :=
  match entries with
  | [] => tags
  | (key, tag) :: rest =>
      if expired now tag then collectTags now rest tags
      else collectTags now rest (<[key := tag]> tags)
  end.

Definition toAddress (a : AddressPB) : Address :=
  {| multiaddr := pbMultiaddr a;
     isCertified := if decide (pbIsCertified a = Some true) then Some true else None;
     lastFailure := pbLastFailure a;
     lastSuccess := pbLastSuccess a |}.

(** [bytesToPeer(peerId, buf)], on the decoded buffer and with the clock
    reading [now = BigInt(Date.now())]. *)
Definition bytesToPeer (now : Z) (peerId : PeerId) (peer : PeerPB) : Peer :=
  let peerId' :=
    match pbPublicKey peer, pidPublicKey peerId with
    | Some _, None => {| pid := pid peerId; pidPublicKey := pidPublicKey peerId |}
    | _, _ => peerId
    end in
  {| id := peerId';
     addresses := map toAddress (pbAddresses peer);
     protocols := pbProtocols peer;
     metadata := pbMetadata peer;
     peerRecordEnvelope := pbPeerRecordEnvelope peer;
     tags := collectTags now (pbTags peer) ∅ |}.

End PeerStoreRead.

(** ** A small error monad for code that throws *)

#[global] Instance Err_ret : MRet (sum Err) := fun _ x => inr x.
#[global] Instance Err_bind : MBind (sum Err) := fun _ _ f m =>
  match m with
  | inl e => inl e
  | inr x => f x
  end.

Definition throw {A} (e : Err) : Err + A := inl e.

(** ** Dial queue *)

Module DialQueue.

Local Open Scope Z_scope.

Record Address := mkAddress { multiaddr : Multiaddr; isCertified : bool }.

#[global] Instance Address_eq_dec : EqDecision Address.
Proof. solve_decision. Defined.

Inductive PendingDialStatus := queued | active | error | success.

(** A connection is identified by the peer and the address it was opened
    to. *)
Record Connection := mkConnection { remotePeer : PeerIdStr; remoteAddr : Multiaddr }.

#[global] Instance Connection_eq_dec : EqDecision Connection.
Proof. solve_decision. Defined.

(** [promise] is the reference of the promise object the entry holds: a
    cell of the promise store of [State]. *)
Record PendingDial := mkPendingDial {
  id : string;
  status : PendingDialStatus;
  peerId : option PeerIdStr;
  multiaddrs : list Multiaddr;
  promise : nat
}.

(** The collaborators of the queue, by their answers. *)
Record DialQueueComponents := mkComponents {
  selfPeerId : PeerIdStr;
  denyDialPeer : option (PeerIdStr -> bool);
  addressBookGet : PeerIdStr -> Err + list Address;
  resolveMultiaddrs : Multiaddr -> list Multiaddr;
  transportForMultiaddr : Multiaddr -> bool;
  denyDialMultiaddr : option (Multiaddr -> bool);
  addressSorter : Address -> Address -> Z;
  maxPeerAddrsToDial : nat
}.

(** [Array.prototype.sort(compare)]: a stable sort, by insertion from the
    right; [a] goes in front of the first [b] with [compare(a, b) <= 0]. *)
Fixpoint insertSorted (compare : Address -> Address -> Z) (a : Address)
    (l : list Address) : list Address :=
  match l with
  | [] => [a]
  | b :: rest =>
      if compare a b <=? 0 then a :: b :: rest
      else b :: insertSorted compare a rest
  end.

Definition sort (compare : Address -> Address -> Z) (l : list Address) : list Address :=
  foldr (insertSorted compare) [] l.

Section WithPrinter.

(** [multiaddr.toString()] of the multiaddr library. *)
Variable toString : Multiaddr -> string.

(** One step of the deduplication loop over the [Map] keyed by string
    form, the map being the list of its values in insertion order: an
    entry already present has its flag updated in place, a new one is
    appended. *)
Fixpoint dedupeStep (deduped : list Address) (addr : Address) : list Address :=
  match deduped with
  | [] => [addr]
  | existing :: rest =>
      if decide (toString (multiaddr existing) = toString (multiaddr addr)) then
        {| multiaddr := multiaddr existing;
           isCertified := isCertified existing || isCertified addr || false |} :: rest
      else existing :: dedupeStep rest addr
  end.

Definition dedupe (filteredAddrs : list Address) : list Address :=
  foldl dedupeStep [] filteredAddrs.

(** The result of resolving one address. *)
Definition resolveOne (c : DialQueueComponents) (addr : Address) : list Address :=
  match resolveMultiaddrs c (multiaddr addr) with
  | [r] => if decide (r = multiaddr addr) then [addr]
           else [{| multiaddr := r; isCertified := false |}]
  | result => map (fun m => {| multiaddr := m; isCertified := false |}) result
  end.

(** The peer id is appended to a multiaddr that is not a path and carries
    no peer id. *)
Definition appendPeerId (peerId : PeerIdStr) (addr : Address) : Address :=
  if Multiaddr.lastProtoIsPath (multiaddr addr) then addr
  else match Multiaddr.getPeerId (multiaddr addr) with
       | None => {| multiaddr := Multiaddr.encapsulate (multiaddr addr) (Multiaddr.p2p peerId);
                    isCertified := isCertified addr |}
       | Some _ => addr
       end.

Definition gate (c : DialQueueComponents) (l : list Address) : list Address :=
  match denyDialMultiaddr c with
  | Some deny => filter (fun a => deny (multiaddr a) = false) l
  | None => l
  end.

(** The first block of [calculateMultiaddrs]: the checks on the peer id,
    and the addresses of the address book when only a peer id was
    passed. *)
Definition loadAddrs (c : DialQueueComponents)
    (peerId : option PeerIdStr) (addrs : list Address) : Err + list Address :=
  match peerId with
  | Some p =>
      if decide (selfPeerId c = p) then
        throw (CodeError "Tried to dial self" ERR_DIALED_SELF)
      else if match denyDialPeer c with Some deny => deny p | None => false end then
        throw (CodeError "The dial request is blocked by gater.allowDialPeer"
                         ERR_PEER_DIAL_INTERCEPTED)
      else if decide (length addrs = 0%nat) then
        loaded ← addressBookGet c p; mret (addrs ++ loaded)
      else mret addrs
  | None => mret addrs
  end.

(** [filteredAddrs]: the resolved addresses that have a transport. *)
Definition filteredAddrs (c : DialQueueComponents) (addrs : list Address) : list Address :=
  filter (fun a => transportForMultiaddr c (multiaddr a) = true)
         (concat (map (resolveOne c) addrs)).

Definition calculateMultiaddrs (c : DialQueueComponents)
    (peerId : option PeerIdStr) (addrs : list Address) : Err + list Address :=
  addrs ← loadAddrs c peerId addrs;
  let dedupedMultiaddrs := dedupe (filteredAddrs c addrs) in
  if decide (length dedupedMultiaddrs = 0%nat) then
    throw (CodeError "The dial request has no valid addresses" ERR_NO_VALID_ADDRESSES)
  else if decide (maxPeerAddrsToDial c < length dedupedMultiaddrs)%nat then
    throw (CodeError "dial with more addresses than allowed" ERR_TOO_MANY_ADDRESSES)
  else
    let dedupedMultiaddrs :=
      match peerId with
      | Some p => map (appendPeerId p) dedupedMultiaddrs
      | None => dedupedMultiaddrs
      end in
    mret (sort (addressSorter c) (gate c dedupedMultiaddrs)).

(** The OR of the flags of the addresses of [l] whose string form is
    [s]. *)
Definition certifiedAmong (l : list Address) (s : string) : bool :=
  existsb (fun a => bool_decide (toString (multiaddr a) = s) && isCertified a) l.

(** *** Pending dials *)

(** [settled] is the store of promise objects: a promise that is still
    pending has no entry. *)
Record State := mkState {
  pendingDials : list PendingDial;
  nextPromise : nat;
  settled : gmap nat (Err + Connection)
}.

Definition init : State :=
  {| pendingDials := []; nextPromise := 0; settled := ∅ |}.

(** What an invocation of [dial] comes to: it throws, or it awaits (and
    returns the value of) a promise. *)
Inductive DialResult :=
| Threw (e : Err)
| Awaits (p : nat).

(** [list.map(ma => ma.toString()).join()] *)
Definition joined (l : list Multiaddr) : string :=
  String.concat "," (map toString l).

(** The predicate of [this.pendingDials.find(...)]. *)
Definition sameTarget (peerId : option PeerIdStr) (addrsToDial : list Address)
    (dial : PendingDial) : bool :=
  if match DialQueue.peerId dial, peerId with
     | Some a, Some b => bool_decide (a = b)
     | _, _ => false
     end
  then true
  else bool_decide (joined (map multiaddr addrsToDial) = joined (multiaddrs dial)).

(** [dial(peerIdOrMultiaddr)], up to the point where it awaits a promise.
    [peerId] and [multiaddrs] are what [getPeerAddress] extracted from the
    argument and [rid] is the draw of [randomId()]. *)
Definition dial (c : DialQueueComponents) (st : State)
    (peerId : option PeerIdStr) (multiaddrs : list Multiaddr) (rid : string)
    : State * DialResult :=
  let addrs := map (fun m => {| multiaddr := m; isCertified := false |}) multiaddrs in
  match calculateMultiaddrs c peerId addrs with
  | inl err => (st, Threw err)
  | inr addrsToDial =>
      match List.find (sameTarget peerId addrsToDial) (pendingDials st) with
      | Some existingDial => (st, Awaits (promise existingDial))
      | None =>
          let pendingDial :=
            {| id := rid; status := queued; peerId := peerId;
               multiaddrs := map multiaddr addrsToDial;
               promise := nextPromise st |} in
          ({| pendingDials := pendingDials st ++ [pendingDial];
              nextPromise := S (nextPromise st);
              settled := settled st |},
           Awaits (promise pendingDial))
      end
  end.

(** *** Racing the addresses *)

(** What the job of one address meets: the state of its signal when it
    reaches the head of each queue, the answer of the transport manager,
    and the time at which the job settles. *)
Record Attempt := mkAttempt {
  abortedInPeerQueue : bool;
  abortedInQueue : bool;
  transportDial : Err + option Connection;
  settledAt : nat
}.

Definition runAttempt (a : Attempt) : Err + Connection :=
  if abortedInPeerQueue a then
    throw (AbortError "Dial was aborted before reaching the head of the peer dial queue")
  else if abortedInQueue a then
    throw (AbortError "Dial was aborted before reaching the head of the dial queue")
  else
    conn ← transportDial a;
    match conn with
    | None => throw (CodeError "successful dial led to empty object" ERR_TRANSPORT_DIAL_FAILED)
    | Some conn => mret conn
    end.

(** [Promise.any]: the value of the promise that fulfils first (the lower
    index on a tie); when none fulfils, an [AggregateError] of the reasons
    in the order of the promises. *)
Fixpoint firstFulfilled {A} (l : list (nat * (Err + A))) : option (nat * A) :=
  match l with
  | [] => None
  | (_, inl _) :: rest => firstFulfilled rest
  | (t, inr v) :: rest =>
      match firstFulfilled rest with
      | Some (t', v') => if (t' <? t)%nat then Some (t', v') else Some (t, v)
      | None => Some (t, v)
      end
  end.

Definition reasons {A} (l : list (nat * (Err + A))) : list Err :=
  omap (fun p => match snd p with inl e => Some e | inr _ => None end) l.

Definition promiseAny {A} (l : list (nat * (Err + A))) : Err + A :=
  match firstFulfilled l with
  | Some (_, v) => inr v
  | None => inl (AggregateError (reasons l))
  end.

(** [performDial(pendingDial)]; [attempt i addr] is what the job of the
    [i]-th address meets.  The value of [Promise.any] is the value of a job,
    which is never null.  The result is the final status of the entry and
    the settlement of the promise. *)
Definition performDial (pendingDial : PendingDial) (attempt : nat -> Multiaddr -> Attempt)
    : PendingDialStatus * (Err + Connection) :=
  let jobs := imap (fun i addr => (settledAt (attempt i addr), runAttempt (attempt i addr)))
                   (multiaddrs pendingDial) in
  match promiseAny jobs with
  | inr conn => (success, inr conn)
  | inl err =>
      (error,
       inl (if bool_decide (length (multiaddrs pendingDial) = 1%nat) then
              match err with
              | AggregateError (e :: _) => e
              | _ => err
              end
            else err))
  end.

(** The [finally] and [catch] handlers that [dial] chains on the promise
    of [performDial]: the entry is removed, and a rejection becomes a
    timeout error when the timeout signal of the dial has fired.
    [result] is the settlement of [performDial]. *)
Definition settle (st : State) (pendingDial : PendingDial)
    (result : Err + Connection) (timeoutAborted : bool) : State :=
  let final :=
    match result with
    | inl err =>
        if timeoutAborted then inl (CodeError (err_message err) ERR_TIMEOUT)
        else inl err
    | inr conn => inr conn
    end in
  {| pendingDials := filter (fun p => id p ≠ id pendingDial) (pendingDials st);
     nextPromise := nextPromise st;
     settled := <[promise pendingDial := final]> (settled st) |}.

(** The value an invocation returns or throws, once its promise has
    settled. *)
Definition outcome (st : State) (r : DialResult) : option (Err + Connection) :=
  match r with
  | Threw e => Some (inl e)
  | Awaits p => settled st !! p
  end.

End WithPrinter.

(** *** Concrete inputs used by the examples below *)

Definition tcp (ip port : string) : Multiaddr :=
  [Multiaddr.mkTuple Multiaddr.CODE_IP4 (Some ip);
   Multiaddr.mkTuple Multiaddr.CODE_TCP (Some port)].

Definition unix (p : string) : Multiaddr :=
  [Multiaddr.mkTuple Multiaddr.CODE_UNIX (Some p)].

(** Certified addresses first. *)
Definition certifiedFirst (a b : Address) : Z :=
  match isCertified a, isCertified b with
  | true, false => -1
  | false, true => 1
  | _, _ => 0
  end.

Definition componentsWith (book : PeerIdStr -> list Address) : DialQueueComponents :=
  {| selfPeerId := "Self";
     denyDialPeer := None;
     addressBookGet := fun p => inr (book p);
     resolveMultiaddrs := fun m => [m];
     transportForMultiaddr := fun _ => true;
     denyDialMultiaddr := None;
     addressSorter := certifiedFirst;
     maxPeerAddrsToDial := 25 |}.

(** The deduplication rule in the words of the specification: "match on
    peer id if present, else on exact address set". *)
Definition specSameTarget (peerId : option PeerIdStr) (addrsToDial : list Address)
    (dial : PendingDial) : bool :=
  match peerId with
  | Some p => bool_decide (DialQueue.peerId dial = Some p)
  | None => bool_decide (map multiaddr addrsToDial = multiaddrs dial)
  end.

(** Two peers that are reached through the same unix socket. *)
Definition sharedSocketBook (p : PeerIdStr) : list Address :=
  [mkAddress (unix "run/p2p.sock") false].


(** A transport that refuses every connection. *)
Definition refused (i : nat) (addr : Multiaddr) : Attempt :=
  {| abortedInPeerQueue := false;
     abortedInQueue := false;
     transportDial := inl (CodeError "connection refused" (ERR_OTHER "ECONNREFUSED"));
     settledAt := i |}.

End DialQueue.

(** ** JS maps *)

Module JsMap.

(** A JS [Map] with keys of type [K], as the list of its entries in
    insertion order. *)
Section Operations.
Context {K V : Type} `{EqDecision K}.

Fixpoint mapGet (k : K) (m : list (K * V)) : option V :=
  match m with
  | [] => None
  | (k', v) :: rest => if decide (k' = k) then Some v else mapGet k rest
  end.

Definition mapHas (k : K) (m : list (K * V)) : bool :=
  match mapGet k m with Some _ => true | None => false end.

(** [set] keeps the position of a key that is present. *)
Fixpoint mapSet (k : K) (v : V) (m : list (K * V)) : list (K * V) :=
  match m with
  | [] => [(k, v)]
  | (k', v') :: rest =>
      if decide (k' = k) then (k', v) :: rest else (k', v') :: mapSet k v rest
  end.

Fixpoint mapDelete (k : K) (m : list (K * V)) : list (K * V) :=
  match m with
  | [] => []
  | (k', v') :: rest =>
      if decide (k' = k) then rest else (k', v') :: mapDelete k rest
  end.
End Operations.

End JsMap.

(** ** Address manager *)

Module AddressManager.
Export JsMap.


Record ObservedAddressMetadata := mkMetadata { confident : bool }.

(** The fields of the manager.  [announce] is the [Set] of the configured
    announce addresses and [observed] the [Map] of observed addresses, both
    keyed by string form. *)
Record State := mkState {
  peerId : PeerIdStr;
  listen : list Multiaddr;
  announce : list Multiaddr;
  observed : list (Multiaddr * ObservedAddressMetadata);
  announceFilter : list Multiaddr -> list Multiaddr;
  ipDomainMappings : list (string * string)
}.

Definition defaultAddressFilter (addrs : list Multiaddr) : list Multiaddr := addrs.

Definition withObserved (s : State) (o : list (Multiaddr * ObservedAddressMetadata)) : State :=
  {| peerId := peerId s; listen := listen s; announce := announce s;
     observed := o; announceFilter := announceFilter s;
     ipDomainMappings := ipDomainMappings s |}.

Definition withMappings (s : State) (m : list (string * string)) : State :=
  {| peerId := peerId s; listen := listen s; announce := announce s;
     observed := observed s; announceFilter := announceFilter s;
     ipDomainMappings := m |}.

(** [stripPeerId(ma, peerId)]: our own peer id is cut off. *)
Definition stripPeerId (ma : Multiaddr) (peerId : PeerIdStr) : Multiaddr :=
  match Multiaddr.getPeerId ma with
  | Some observedPeerId =>
      if decide (observedPeerId = peerId) then
        default ma (Multiaddr.decapsulateTuple ma
                      (Multiaddr.mkTuple Multiaddr.CODE_P2P (Some peerId)))
      else ma
  | None => ma
  end.

Definition getAnnounceAddrs (s : State) : list Multiaddr := announce s.

Definition getObservedAddrs (s : State) : list Multiaddr := map fst (observed s).

Definition addObservedAddr (s : State) (addr : Multiaddr) : State :=
  let addr := stripPeerId addr (peerId s) in
  if mapHas addr (observed s) then s
  else withObserved s (mapSet addr {| confident := false |} (observed s)).

(** The debounced update of the peer store that a first confirmation
    triggers is left out. *)
Definition confirmObservedAddr (s : State) (addr : Multiaddr) : State :=
  let addr := stripPeerId addr (peerId s) in
  withObserved s (mapSet addr {| confident := true |} (observed s)).

Definition removeObservedAddr (s : State) (addr : Multiaddr) : State :=
  let addr := stripPeerId addr (peerId s) in
  withObserved s (mapDelete addr (observed s)).

Definition addDNSMapping (s : State) (domain : string) (addresses : list string) : State :=
  withMappings s (foldl (fun m ip => mapSet ip domain m) (ipDomainMappings s) addresses).

Definition removeDNSMapping (s : State) (domain : string) : State :=
  withMappings s (filter (fun e => e.2 ≠ domain) (ipDomainMappings s)).

(** The body of the loop over the tuples for one mapping: a tuple whose
    value is [ip] and whose code is ip4 or ip6 becomes a dns4 or dns6 tuple
    for [domain]. *)
Definition mapTuple (ip domain : string) (tu : Multiaddr.Tuple) : Multiaddr.Tuple * bool :=
  if decide (Multiaddr.value tu = Some ip) then
    if (Multiaddr.code tu =? Multiaddr.CODE_IP4)%N then
      (Multiaddr.mkTuple Multiaddr.CODE_DNS4 (Some domain), true)
    else if (Multiaddr.code tu =? Multiaddr.CODE_IP6)%N then
      (Multiaddr.mkTuple Multiaddr.CODE_DNS6 (Some domain), true)
    else (tu, false)
  else (tu, false).

Definition applyMapping (acc : list Multiaddr.Tuple * bool) (mapping : string * string)
    : list Multiaddr.Tuple * bool :=
  let mapped := map (mapTuple mapping.1 mapping.2) acc.1 in
  (map fst mapped, acc.2 || existsb snd mapped).

(** The address with its ips replaced by domains, when there is one to
    replace. *)
Definition mappedAddr (mappings : list (string * string)) (ma : Multiaddr) : option Multiaddr :=
  let r := foldl applyMapping (ma, false) mappings in
  if r.2 then Some r.1 else None.

(** The deduplicating [filter] over the string forms: the first occurrence
    of an address is kept. *)
Fixpoint dedupeSeen (addrSet : list Multiaddr) (multiaddrs : list Multiaddr) : list Multiaddr :=
  match multiaddrs with
  | [] => []
  | ma :: rest =>
      if decide (ma ∈ addrSet) then dedupeSeen addrSet rest
      else ma :: dedupeSeen (ma :: addrSet) rest
  end.

(** The last step of [getAddresses]: our peer id is appended to an address
    that is not a path and does not carry it. *)
Definition withPeerId (peerId : PeerIdStr) (ma : Multiaddr) : Multiaddr :=
  if Multiaddr.lastProtoIsPath ma then ma
  else if decide (Multiaddr.getPeerId ma = Some peerId) then ma
  else Multiaddr.encapsulate ma (Multiaddr.p2p peerId).

Definition confidentAddrs (s : State) : list Multiaddr :=
  map fst (filter (fun e => confident e.2 = true) (observed s)).

(** The announce addresses, or else the addresses the transports listen
    on, followed by the observed addresses we are confident in. *)
Definition baseAddrs (s : State) (transportAddrs : list Multiaddr) : list Multiaddr :=
  (if decide (length (getAnnounceAddrs s) = 0%nat) then transportAddrs
   else getAnnounceAddrs s) ++ confidentAddrs s.

(** [getAddresses()]; [transportAddrs] is the answer of
    [transportManager.getAddrs()]. *)
Definition getAddresses (s : State) (transportAddrs : list Multiaddr) : list Multiaddr :=
  let multiaddrs := baseAddrs s transportAddrs in
  let mappedMultiaddrs := omap (mappedAddr (ipDomainMappings s)) multiaddrs in
  let multiaddrs := multiaddrs ++ mappedMultiaddrs in
  announceFilter s (map (withPeerId (peerId s)) (dedupeSeen [] multiaddrs)).

(** The calls made on the manager. *)
Inductive Call :=
| AddObservedAddr (addr : Multiaddr)
| ConfirmObservedAddr (addr : Multiaddr)
| RemoveObservedAddr (addr : Multiaddr)
| AddDNSMapping (domain : string) (addresses : list string)
| RemoveDNSMapping (domain : string).

Definition call (s : State) (c : Call) : State :=
  match c with
  | AddObservedAddr a => addObservedAddr s a
  | ConfirmObservedAddr a => confirmObservedAddr s a
  | RemoveObservedAddr a => removeObservedAddr s a
  | AddDNSMapping d ips => addDNSMapping s d ips
  | RemoveDNSMapping d => removeDNSMapping s d
  end.

Definition calls (s : State) (cs : list Call) : State := foldl call s cs.

(** A new manager. *)
Definition create (peerId : PeerIdStr) (listen announce : list Multiaddr)
    (announceFilter : option (list Multiaddr -> list Multiaddr)) : State :=
  {| peerId := peerId; listen := listen; announce := dedupeSeen [] announce;
     observed := []; announceFilter := default defaultAddressFilter announceFilter;
     ipDomainMappings := [] |}.

(** Whether the entry of [k] in the observed map is marked confident. *)
Definition isConfident (s : State) (k : Multiaddr) : bool :=
  match mapGet k (observed s) with
  | Some m => confident m
  | None => false
  end.



Definition ip4tcp (ip port : string) : Multiaddr :=
  [Multiaddr.mkTuple Multiaddr.CODE_IP4 (Some ip);
   Multiaddr.mkTuple Multiaddr.CODE_TCP (Some port)].

End AddressManager.

(** ** Identify service *)

Module Identify.
Import JsMap.

Abbreviation Address := DialQueue.Address.
Abbreviation mkAddress := DialQueue.mkAddress.
Abbreviation multiaddr := DialQueue.multiaddr.
Abbreviation isCertified := DialQueue.isCertified.

(** A buffer that holds an address: its length, and what [multiaddr(buf)]
    makes of it, [None] when it throws. *)
Record AddrBuf := mkAddrBuf { bufLength : nat; bufAddr : option Multiaddr }.

Record PeerRecord := mkPeerRecord {
  recordPeerId : PeerIdStr;
  seqNumber : N;
  recordMultiaddrs : list Multiaddr
}.

(** A marshalled record envelope, by what the peer-record package makes
    of the bytes: the peer id of the signing key, whether
    [openAndCertify] accepts the signature for [PeerRecord.DOMAIN], and the
    record [PeerRecord.createFromProtobuf] decodes from the payload, [None]
    when it throws. *)
Record Envelope := mkEnvelope {
  envelopePeerId : PeerIdStr;
  signatureValid : bool;
  payload : option PeerRecord
}.

(** The decoded Identify message. *)
Record IdentifyMessage := mkIdentify {
  protocolVersion : option string;
  agentVersion : option string;
  publicKey : option string;
  listenAddrs : list AddrBuf;
  observedAddr : option AddrBuf;
  protocols : list string;
  signedPeerRecord : option Envelope
}.

Record SignedPeerRecord := mkSigned { seq : N; signedAddresses : list Multiaddr }.

(** *** Peer store *)

Record Peer := mkPeer {
  addresses : list Address;
  peerProtocols : list string;
  metadata : list (string * string);
  peerRecordEnvelope : option Envelope
}.

(** The object handed to [peerStore.patch]. *)
Record PeerData := mkPeerData {
  dataAddresses : list Address;
  dataProtocols : list string;
  dataMetadata : list (string * string);
  dataPeerRecordEnvelope : option Envelope
}.

Abbreviation PeerStore := (gmap PeerIdStr Peer).

Section WithPrinter.

Variable toString : Multiaddr -> string.

(** Modelled from the spec: [PeerStore.patch] is not among the sources.
    The specification has it replace the entry field by field, the addresses
    being deduplicated by string form with the strongest isCertified kept; a
    field that is absent from the update (here: the envelope) keeps its
    stored value. *)
Definition patch (store : PeerStore) (id : PeerIdStr) (data : PeerData) : PeerStore :=
  <[id := {| addresses := DialQueue.dedupe toString (dataAddresses data);
             peerProtocols := dataProtocols data;
             metadata := dataMetadata data;
             peerRecordEnvelope :=
               match dataPeerRecordEnvelope data with
               | Some e => Some e
               | None =>
                   match store !! id with
                   | Some existing => peerRecordEnvelope existing
                   | None => None
                   end
               end |}]> store.

(** *** Consuming a message *)

(** [bufs.map(buf => multiaddr(buf))] *)
Fixpoint parseAll (bufs : list AddrBuf) : Err + list Multiaddr :=
  match bufs with
  | [] => mret []
  | buf :: rest =>
      match bufAddr buf with
      | None => throw (PlainError "invalid multiaddr")
      | Some ma => mas ← parseAll rest; mret (ma :: mas)
      end
  end.

Definition openAndCertify (e : Envelope) : Err + Envelope :=
  if signatureValid e then mret e
  else throw (PlainError "envelope signature is not valid for the given domain").

Definition createFromProtobuf (e : Envelope) : Err + PeerRecord :=
  match payload e with
  | Some r => mret r
  | None => throw (PlainError "invalid peer record")
  end.

(** The branch of [#consumeIdentifyMessage] for a message with a signed
    peer record: the metadata to keep, the envelope and the record that
    win. *)
Definition chooseRecord (store : PeerStore) (remotePeer : PeerIdStr)
    (received : Envelope) : Err + (list (string * string) * Envelope * PeerRecord) :=
  envelope ← openAndCertify received;
  peerRecord ← createFromProtobuf envelope;
  if decide (recordPeerId peerRecord ≠ envelopePeerId envelope) then
    throw (PlainError "signing key does not match PeerId in the PeerRecord")
  else if decide (remotePeer ≠ recordPeerId peerRecord) then
    throw (PlainError "signing key does not match remote PeerId")
  else
    match store !! recordPeerId peerRecord with
    | Some existingPeer =>
        match peerRecordEnvelope existingPeer with
        | Some storedEnvelope =>
            storedRecord ← createFromProtobuf storedEnvelope;
            if (seqNumber peerRecord <=? seqNumber storedRecord)%N then
              mret (metadata existingPeer, storedEnvelope, storedRecord)
            else mret (metadata existingPeer, received, peerRecord)
        | None => mret (metadata existingPeer, received, peerRecord)
        end
    | None => mret ([], received, peerRecord)
    end.

Definition setVersions (message : IdentifyMessage) (md : list (string * string))
    : list (string * string) :=
  let md := match agentVersion message with
            | Some v => mapSet "AgentVersion" v md
            | None => md
            end in
  match protocolVersion message with
  | Some v => mapSet "ProtocolVersion" v md
  | None => md
  end.

(** [#consumeIdentifyMessage(remotePeer, message)] *)
Definition consumeIdentifyMessage (store : PeerStore) (remotePeer : PeerIdStr)
    (message : IdentifyMessage) : PeerStore * (Err + option SignedPeerRecord) :=
  match parseAll (listenAddrs message) with
  | inl err => (store, inl err)
  | inr listen =>
      match signedPeerRecord message with
      | Some received =>
          match chooseRecord store remotePeer received with
          | inl err => (store, inl err)
          | inr (md, peerRecordEnvelope, peerRecord) =>
              let peer :=
                {| dataAddresses := map (fun ma => mkAddress ma true)
                                        (recordMultiaddrs peerRecord);
                   dataProtocols := protocols message;
                   dataMetadata := setVersions message md;
                   dataPeerRecordEnvelope := Some peerRecordEnvelope |} in
              (patch store remotePeer peer,
               inr (Some {| seq := seqNumber peerRecord;
                            signedAddresses := recordMultiaddrs peerRecord |}))
          end
      | None =>
          let peer :=
            {| dataAddresses := map (fun ma => mkAddress ma false) listen;
               dataProtocols := protocols message;
               dataMetadata := setVersions message [];
               dataPeerRecordEnvelope := None |} in
          (patch store remotePeer peer, inr None)
      end
  end.

(** The messages of a peer consumed one after the other; a message that
    is rejected leaves the store as it was. *)
Definition consumeAll (store : PeerStore) (remotePeer : PeerIdStr)
    (messages : list IdentifyMessage) : PeerStore :=
  foldl (fun st m => (consumeIdentifyMessage st remotePeer m).1) store messages.

(** The record stored for a peer. *)
Definition storedRecord (store : PeerStore) (p : PeerIdStr) : option PeerRecord :=
  match store !! p with
  | Some peer =>
      match peerRecordEnvelope peer with
      | Some e => payload e
      | None => None
      end
  | None => None
  end.




(** *** Running identify on a connection *)

Inductive ConnectionStatus := open | closing | closed.

Record Connection := mkConnection {
  remotePeer : PeerIdStr;
  status : ConnectionStatus;
  streams : nat
}.

(** [connection.newStream] and [stream.close()], by the number of open
    streams. *)
Definition openStream (c : Connection) : Connection :=
  {| remotePeer := remotePeer c; status := status c; streams := S (streams c) |}.

Definition closeStream (c : Connection) : Connection :=
  {| remotePeer := remotePeer c; status := status c; streams := pred (streams c) |}.

(** [connection.abort(err)] of the connection interface. *)
Definition abort (c : Connection) : Connection :=
  {| remotePeer := remotePeer c; status := closed; streams := 0 |}.

(** What the identify stream yields. *)
Inductive StreamRead :=
| NewStreamFails (e : Err)
| ReadFails (e : Err)
| NoData
| Undecodable (why : string)
| Decoded (message : IdentifyMessage).

Record IdentifyResult := mkResult {
  resultPeerId : PeerIdStr;
  resultProtocolVersion : option string;
  resultAgentVersion : option string;
  resultPublicKey : option string;
  resultListenAddrs : list Multiaddr;
  resultObservedAddr : option Multiaddr;
  resultProtocols : list string;
  resultSignedPeerRecord : option SignedPeerRecord
}.

(** The configuration of the service; [peerIdFromKeys] is the function of
    the peer-id package. *)
Record Service := mkService {
  selfPeerId : PeerIdStr;
  maxObservedAddresses : option nat;
  peerIdFromKeys : string -> Err + PeerIdStr
}.

(** The components the service acts on: the peer store, the address
    manager, the [peer:identify] events dispatched so far and the errors
    logged so far. *)
Record World := mkWorld {
  peerStore : PeerStore;
  addressManager : AddressManager.State;
  events : list IdentifyResult;
  logged : list Err
}.

Definition _identify (connection : Connection) (read : StreamRead)
    : Connection * (Err + IdentifyMessage) :=
  match read with
  | NewStreamFails e => (connection, inl e)
  | ReadFails e => (closeStream (openStream connection), inl e)
  | NoData =>
      (closeStream (openStream connection),
       inl (CodeError "No data could be retrieved" ERR_CONNECTION_ENDED))
  | Undecodable why =>
      (closeStream (openStream connection), inl (CodeError why ERR_INVALID_MESSAGE))
  | Decoded message => (closeStream (openStream connection), inr message)
  end.

(** [getCleanMultiaddr(addr)] *)
Definition getCleanMultiaddr (addr : option AddrBuf) : option Multiaddr :=
  match addr with
  | Some buf => if (0 <? bufLength buf)%nat then bufAddr buf else None
  | None => None
  end.

Definition storeObserved (svc : Service) (am : AddressManager.State)
    (cleanObservedAddr : option Multiaddr) : AddressManager.State :=
  match cleanObservedAddr with
  | Some addr =>
      if match maxObservedAddresses svc with
         | Some n => (length (AddressManager.getObservedAddrs am) <? n)%nat
         | None => true
         end
      then AddressManager.addObservedAddr am addr
      else am
  | None => am
  end.

(** [identify(connection)] *)
Definition identify (svc : Service) (w : World) (connection : Connection)
    (read : StreamRead) : World * Connection * (Err + unit) :=
  let (connection, received) := _identify connection read in
  match received with
  | inl err => (w, connection, inl err)
  | inr message =>
      match publicKey message with
      | None =>
          (w, connection,
           inl (CodeError "public key was missing from identify message"
                          ERR_MISSING_PUBLIC_KEY))
      | Some key =>
          match peerIdFromKeys svc key with
          | inl err => (w, connection, inl err)
          | inr id =>
              if decide (remotePeer connection ≠ id) then
                (w, connection,
                 inl (CodeError "identified peer does not match the expected peer"
                                ERR_INVALID_PEER))
              else if decide (selfPeerId svc = id) then
                (w, connection,
                 inl (CodeError "identified peer is our own peer id?" ERR_INVALID_PEER))
              else
                let am := storeObserved svc (addressManager w)
                            (getCleanMultiaddr (observedAddr message)) in
                let (store, consumed) :=
                  consumeIdentifyMessage (peerStore w) (remotePeer connection) message in
                let w := {| peerStore := store; addressManager := am;
                            events := events w; logged := logged w |} in
                match consumed with
                | inl err => (w, connection, inl err)
                | inr signedPeerRecord =>
                    match parseAll (listenAddrs message),
                          match observedAddr message with
                          | Some buf =>
                              match bufAddr buf with
                              | Some ma => inr (Some ma)
                              | None => throw (PlainError "invalid multiaddr")
                              end
                          | None => inr None
                          end with
                    | inr listen, inr observed =>
                        let result :=
                          {| resultPeerId := id;
                             resultProtocolVersion := protocolVersion message;
                             resultAgentVersion := agentVersion message;
                             resultPublicKey := publicKey message;
                             resultListenAddrs := listen;
                             resultObservedAddr := observed;
                             resultProtocols := protocols message;
                             resultSignedPeerRecord := signedPeerRecord |} in
                        ({| peerStore := store; addressManager := am;
                            events := events w ++ [result]; logged := logged w |},
                         connection, inr tt)
                    | inl err, _ => (w, connection, inl err)
                    | _, inl err => (w, connection, inl err)
                    end
                end
          end
      end
  end.

(** The listener of [connection:open]: identify runs, and an error is
    logged. *)
Definition onConnectionOpen (svc : Service) (w : World) (connection : Connection)
    (read : StreamRead) : World * Connection :=
  match identify svc w connection read with
  | (w, connection, inl err) =>
      ({| peerStore := peerStore w; addressManager := addressManager w;
          events := events w; logged := logged w ++ [err] |}, connection)
  | (w, connection, inr _) => (w, connection)
  end.

End WithPrinter.

(** *** Concrete inputs used by the examples *)

Definition exampleService : Service :=
  {| selfPeerId := "Self";
     maxObservedAddresses := Some 10%nat;
     peerIdFromKeys := fun key => inr ("id-of-" +:+ key) |}.

Definition emptyWorld : World :=
  {| peerStore := ∅;
     addressManager := AddressManager.create "Self" [] [] None;
     events := [];
     logged := [] |}.

Definition messageWithKey (key : option string) : IdentifyMessage :=
  {| protocolVersion := Some "ipfs/0.1.0";
     agentVersion := Some "js-libp2p";
     publicKey := key;
     listenAddrs := [];
     observedAddr := None;
     protocols := ["/ipfs/id/1.0.0"];
     signedPeerRecord := None |}.

Definition recordMessage (p : PeerIdStr) (n : N) (mas : list Multiaddr) : IdentifyMessage :=
  {| protocolVersion := None;
     agentVersion := None;
     publicKey := None;
     listenAddrs := [];
     observedAddr := None;
     protocols := [];
     signedPeerRecord := Some (mkEnvelope p true (Some (mkPeerRecord p n mas))) |}.

End Identify.

(** ** Node lifecycle *)

Module Libp2pNode.

Section WithServices.

(** The state of the services, the keychain apart. *)
Variable W : Type.

(** A lifecycle method of a service, run to completion: the state it
    leaves, and the error when its promise rejects. *)
Definition Hook := W -> W * option Err.

Record Startable := mkStartable {
  beforeStart : option Hook;
  start_ : Hook;
  afterStart : option Hook;
  beforeStop : option Hook;
  stop_ : Hook;
  afterStop : option Hook
}.

Record Node := mkNode {
  started : bool;
  services : list Startable;
  keychain : list string;
  world : W
}.

(** [await Promise.all(this.services.map(async service => ...))]: the
    method of every service is called, in the order of the services; the
    promise rejects with the first rejection. *)
Fixpoint runAll (hooks : list (option Hook)) (w : W) : W * option Err :=
  match hooks with
  | [] => (w, None)
  | None :: rest => runAll rest w
  | Some h :: rest =>
      let (w, r) := h w in
      let (w, r') := runAll rest w in
      (w, match r with Some e => Some e | None => r' end)
  end.

(** Phases in sequence; a phase that rejects ends the sequence. *)
Fixpoint runPhases (phases : list (list (option Hook))) (w : W) : W * option Err :=
  match phases with
  | [] => (w, None)
  | phase :: rest =>
      match runAll phase w with
      | (w, Some e) => (w, Some e)
      | (w, None) => runPhases rest w
      end
  end.

Definition withWorld (n : Node) (flag : bool) (keys : list string) (w : W) : Node :=
  {| started := flag; services := services n; keychain := keys; world := w |}.

(** [stop()] *)
Definition stop (n : Node) : Node * option Err :=
  if negb (started n) then (n, None)
  else
    let (w, r) :=
      runPhases [map beforeStop (services n);
                 map (fun s => Some (stop_ s)) (services n);
                 map afterStop (services n)] (world n) in
    (withWorld n false (keychain n) w, r).

(** [start()]; an error of the start phases stops the node again and is
    rethrown. *)
Definition start (n : Node) : Node * option Err :=
  if started n then (n, None)
  else
    let keys := if bool_decide ("self" ∈ keychain n) then keychain n
                else keychain n ++ ["self"] in
    let (w, r) :=
      runPhases [map beforeStart (services n);
                 map (fun s => Some (start_ s)) (services n);
                 map afterStart (services n)] (world n) in
    match r with
    | None => (withWorld n true keys w, None)
    | Some err =>
        match stop (withWorld n true keys w) with
        | (n', Some err') => (n', Some err')
        | (n', None) => (n', Some err)
        end
    end.

(** [await f(); await g()] *)
Definition andThen (f g : Node -> Node * option Err) (n : Node) : Node * option Err :=
  match f n with
  | (n', None) => g n'
  | (n', Some e) => (n', Some e)
  end.

End WithServices.

Arguments mkStartable {W}.
Arguments mkNode {W}.
Arguments beforeStart {W} s.
Arguments start_ {W} s.
Arguments afterStart {W} s.
Arguments beforeStop {W} s.
Arguments stop_ {W} s.
Arguments afterStop {W} s.
Arguments withWorld {W} n flag keys w.
Arguments started {W} n.
Arguments services {W} n.
Arguments keychain {W} n.
Arguments world {W} n.
Arguments runAll {W} hooks w.
Arguments runPhases {W} phases w.
Arguments stop {W} n.
Arguments start {W} n.
Arguments andThen {W} f g n.

(** A service that records the calls of its methods. *)
Definition recorder (name : string) : Startable (list string) :=
  {| beforeStart := None;
     start_ := fun w : list string => (w ++ ["start " +:+ name], None);
     afterStart := Some (fun w => (w ++ ["afterStart " +:+ name], None));
     beforeStop := None;
     stop_ := fun w => (w ++ ["stop " +:+ name], None);
     afterStop := None |}.

Definition exampleNode (flag : bool) : Node (list string) :=
  {| started := flag;
     services := [recorder "identify"; recorder "dht"];
     keychain := [];
     world := [] |}.

End Libp2pNode.

(** ** Dial queue: successive invocations *)

Module DialQueueRuns.
Import DialQueue.

(** Invocations of [dial] with the same argument, one after the other, none
    of the dials settling in between; [rids] are the draws of
    [randomId()]. *)
Fixpoint dialMany (toString : Multiaddr -> string) (c : DialQueueComponents) (st : State)
    (peerId : option PeerIdStr) (multiaddrs : list Multiaddr) (rids : list string)
    : State * list DialResult :=
  match rids with
  | [] => (st, [])
  | rid :: rest =>
      let (st, r) := dial toString c st peerId multiaddrs rid in
      let (st, rs) := dialMany toString c st peerId multiaddrs rest in
      (st, r :: rs)
  end.

(** A gater that denies every multiaddr. *)
Definition denyingComponents (book : PeerIdStr -> list Address) : DialQueueComponents :=
  {| selfPeerId := "Self";
     denyDialPeer := None;
     addressBookGet := fun p => inr (book p);
     resolveMultiaddrs := fun m => [m];
     transportForMultiaddr := fun _ => true;
     denyDialMultiaddr := Some (fun _ => true);
     addressSorter := certifiedFirst;
     maxPeerAddrsToDial := 25 |}.

(** The transport answers on the second address only. *)
Definition secondAnswers (i : nat) (addr : Multiaddr) : Attempt :=
  {| abortedInPeerQueue := false;
     abortedInQueue := false;
     transportDial :=
       if (i =? 1)%nat then inr (Some (mkConnection "P" addr))
       else inl (CodeError "connection refused" (ERR_OTHER "ECONNREFUSED"));
     settledAt := i |}.

End DialQueueRuns.

(** ** Connection manager utilities: resolving multiaddrs *)

Module ConnectionManagerUtils.

(** [ma.protoNames().includes('dnsaddr')] *)
Definition resolvable (ma : Multiaddr) : bool :=
  existsb (fun tu => (Multiaddr.code tu =? Multiaddr.CODE_DNSADDR)%N) ma.

(** [resolveRecord(ma)]: the answer of [ma.resolve()], and no address when
    it throws.  [dns] is what the resolver of the multiaddr library
    answers. *)
Definition resolveRecord (dns : Multiaddr -> Err + list Multiaddr) (ma : Multiaddr)
    : list Multiaddr :=
  match dns ma with
  | inr multiaddrs => multiaddrs
  | inl _ => []
  end.

(** The body of the [reduce]: an address is pushed unless an equal one is
    there. *)
Definition pushNew (array : list Multiaddr) (newM : Multiaddr) : list Multiaddr :=
  if decide (newM ∈ array) then array else array ++ [newM].

(** [resolveMultiaddrs(ma)]; the recursion follows the answers of the
    resolver, so it is bounded by [fuel], and [None] is the recursion that
    has not ended within the bound. *)
Fixpoint resolveMultiaddrs (fuel : nat) (dns : Multiaddr -> Err + list Multiaddr)
    (ma : Multiaddr) : option (list Multiaddr) :=
  match fuel with
  | O => None
  | S fuel =>
      if negb (resolvable ma) then Some [ma]
      else
        match mapM (resolveMultiaddrs fuel dns) (resolveRecord dns ma) with
        | Some recursiveMultiaddrs => Some (foldl pushNew [] (concat recursiveMultiaddrs))
        | None => None
        end
  end.

Definition dnsaddr (domain : string) : Multiaddr :=
  [Multiaddr.mkTuple Multiaddr.CODE_DNSADDR (Some domain)].

(** A resolver that knows one record, with two entries for the same
    address. *)
Definition exampleDns (ma : Multiaddr) : Err + list Multiaddr :=
  if decide (ma = dnsaddr "bootstrap.example") then
    inr [DialQueue.tcp "1.2.3.4" "4001"; DialQueue.tcp "1.2.3.4" "4001"]
  else inl (PlainError "queryTxt ENOTFOUND").

End ConnectionManagerUtils.

(** ** Address manager: updates of the peer store *)

Module AddressManagerUpdates.
Import AddressManager.

(** Whether [confirmObservedAddr(addr)] goes on to call
    [_updatePeerStoreAddresses()]: it does when the address was not held with
    confidence before. *)
Definition confirmUpdates (s : State) (addr : Multiaddr) : bool :=
  let addr := stripPeerId addr (peerId s) in
  let metadata := default {| confident := false |} (mapGet addr (observed s)) in
  let startingConfidence := confident metadata in
  negb startingConfidence.

End AddressManagerUpdates.

(** ** Identify service: pushes *)

Module IdentifyPush.
Import Identify.





(** A message whose observed address cannot be parsed. *)
Definition messageWithBadObservedAddr (key : string) : IdentifyMessage :=
  {| protocolVersion := None;
     agentVersion := None;
     publicKey := Some key;
     listenAddrs := [mkAddrBuf 8 (Some (DialQueue.tcp "1.2.3.4" "4001"))];
     observedAddr := Some (mkAddrBuf 3 None);
     protocols := ["/ipfs/id/1.0.0"];
     signedPeerRecord := None |}.

Definition keyService : Service :=
  {| selfPeerId := "Self";
     maxObservedAddresses := Some 10%nat;
     peerIdFromKeys := fun key => inr key |}.

End IdentifyPush.

(** ** Node lifecycle: a service that fails to start *)

Module Libp2pNodeRuns.
Import Libp2pNode.

Definition failing (name : string) : Startable (list string) :=
  {| beforeStart := None;
     start_ := fun w : list string =>
                 (w ++ ["start " +:+ name], Some (PlainError "address already in use"));
     afterStart := None;
     beforeStop := None;
     stop_ := fun w : list string => (w ++ ["stop " +:+ name], None);
     afterStop := None |}.

Definition failingNode : Node (list string) :=
  {| started := false;
     services := [recorder "identify"; failing "tcp"];
     keychain := [];
     world := [] |}.

End Libp2pNodeRuns.

(** ** Dial queue: a dial that is aborted *)

Module DialQueueAbort.
Import DialQueue.


End DialQueueAbort.

(** * Theorems *)

(** ** Peer store reads *)

Module PeerStoreReadFacts.
Import PeerStoreRead.
Local Open Scope Z_scope.

Lemma collectTags_live now entries :
  forall acc key tag,
    (forall k t, acc !! k = Some t -> expired now t = false) ->
    collectTags now entries acc !! key = Some tag ->
    expired now tag = false.
Proof.
  induction entries as [|[k t] rest IH]; intros acc key tag Hacc Hget; simpl in Hget.
  - by eapply Hacc.
  - destruct (expired now t) eqn:Hexp.
    + by eapply IH.
    + eapply IH; [|exact Hget].
      intros k' t' Hk'. destruct (decide (k = k')) as [->|Hne].
      * rewrite lookup_insert_eq in Hk'. by inversion Hk'; subst.
      * rewrite lookup_insert_ne in Hk' by done. by eapply Hacc.
Qed.

(** C9. Every tag visible in the entry returned by a read has an expiry
    that is not earlier than the time of the read: a tag whose expiry is
    earlier than [now] is absent from the returned tags map, whatever the
    stored entry holds. *)
Theorem bytesToPeer_hides_expired_tags now peerId peer key tag e :
  tags (bytesToPeer now peerId peer) !! key = Some tag ->
  expiry tag = Some e ->
  ~ (e < now).
Proof.
  intros Hget He.
  assert (Hlive : expired now tag = false).
  { eapply collectTags_live; [|exact Hget]. intros k t Hk.
    by rewrite lookup_empty in Hk. }
  unfold expired in Hlive. rewrite He in Hlive.
  apply Z.ltb_ge in Hlive. lia.
Qed.

Lemma bytesToPeer_hides_expired_tags_witness :
  ~ (2000 < 1000).
Proof.
  apply (bytesToPeer_hides_expired_tags 1000 (mkPeerId "P" None)
           (mkPeerPB None [] [] []
              [("old", mkTag 5 (Some 999)); ("keep", mkTag 7 (Some 2000))] None)
           "keep" (mkTag 7 (Some 2000)) 2000); reflexivity.
Defined.

Example bytesToPeer_tags :
  tags (bytesToPeer 1000 (mkPeerId "P" None)
          (mkPeerPB None [] [] []
             [("old", mkTag 5 (Some 999)); ("keep", mkTag 7 (Some 2000));
              ("forever", mkTag 1 None)] None))
  = <["forever" := mkTag 1 None]> (<["keep" := mkTag 7 (Some 2000)]> ∅).
Proof. reflexivity. Qed.

End PeerStoreReadFacts.

(** ** Dial queue *)

Module DialQueueFacts.
Import DialQueue.
Local Open Scope Z_scope.

Example calculateMultiaddrs_appends :
  calculateMultiaddrs Multiaddr.toString (componentsWith (fun _ => []))
    (Some "P") [mkAddress (tcp "1.2.3.4" "4001") false; mkAddress (unix "a.sock") true]
  = inr [mkAddress (unix "a.sock") true;
         mkAddress (tcp "1.2.3.4" "4001" ++ Multiaddr.p2p "P") false].
Proof. reflexivity. Qed.

Example toString_tcp :
  Multiaddr.toString (tcp "1.2.3.4" "4001" ++ Multiaddr.p2p "P") = "/ip4/1.2.3.4/tcp/4001/p2p/P".
Proof. reflexivity. Qed.

(** *** Dialling self *)

(** C5. A dial whose target peer id is the node's own peer id rejects with
    ERR_DIALED_SELF and leaves the queue, its list of pending dials
    included, as it was. *)
Theorem dial_self_rejected toString c st multiaddrs rid :
  dial toString c st (Some (selfPeerId c)) multiaddrs rid
  = (st, Threw (CodeError "Tried to dial self" ERR_DIALED_SELF)).
Proof.
  unfold dial, calculateMultiaddrs. simpl.
  destruct (decide (selfPeerId c = selfPeerId c)); [reflexivity | congruence].
Qed.

Example dial_self_leaves_no_entry :
  pendingDials (dial Multiaddr.toString (componentsWith sharedSocketBook) init
                  (Some "Self") [] "17").1 = [].
Proof. reflexivity. Qed.

(** *** The error of a dial whose addresses all fail *)

Lemma all_rejected {A B} (l : list A) :
  forall (f : nat -> A -> nat * (Err + B)) (g : nat -> A -> Err),
    (forall i a, l !! i = Some a -> (f i a).2 = inl (g i a)) ->
    firstFulfilled (imap f l) = None /\ reasons (imap f l) = imap g l.
Proof.
  induction l as [|x l IH]; intros f g H; [done|].
  pose proof (H 0%nat x eq_refl) as H0.
  destruct (IH (f ∘ S) (g ∘ S)) as [IH1 IH2].
  { intros i a Hi. apply (H (S i) a Hi). }
  unfold reasons in *. cbn [imap firstFulfilled omap list_omap].
  destruct (f 0%nat x) as [t [e|v]] eqn:Hf; simpl in H0; [|done].
  inversion H0; subst. split; [exact IH1|].
  cbn. by rewrite IH2.
Qed.

(** C6. When every address of a dial fails, [performDial] rejects with the
    error of the address if there is exactly one, and otherwise with an
    AggregateError of the errors of all addresses; the promise of the dial
    then rejects with that error, or, when the timeout signal of the dial
    has fired, with an ERR_TIMEOUT error carrying its message. *)
Theorem all_addresses_fail_rejection st pendingDial attempt reason timeoutAborted :
  (forall i addr, multiaddrs pendingDial !! i = Some addr ->
                  runAttempt (attempt i addr) = inl (reason i addr)) ->
  let err := match multiaddrs pendingDial with
             | [addr] => reason 0%nat addr
             | l => AggregateError (imap reason l)
             end in
  performDial pendingDial attempt = (error, inl err) /\
  settled (settle st pendingDial (inl err) timeoutAborted) !! promise pendingDial
  = Some (inl (if timeoutAborted then CodeError (err_message err) ERR_TIMEOUT else err)).
Proof.
  intros Hfail err. split.
  - unfold performDial, promiseAny.
    destruct (all_rejected (B := Connection) (multiaddrs pendingDial)
                (fun i addr => (settledAt (attempt i addr), runAttempt (attempt i addr)))
                reason Hfail) as [-> ->].
    subst err. destruct (multiaddrs pendingDial) as [|a [|b l]]; reflexivity.
  - unfold settle. simpl. rewrite lookup_insert_eq. by destruct timeoutAborted.
Qed.

Lemma all_addresses_fail_rejection_witness :
  performDial (mkPendingDial "17" queued (Some "P") [unix "run/p2p.sock"] 0) refused
  = (error, inl (CodeError "connection refused" (ERR_OTHER "ECONNREFUSED"))) /\
  settled (settle init (mkPendingDial "17" queued (Some "P") [unix "run/p2p.sock"] 0)
             (inl (CodeError "connection refused" (ERR_OTHER "ECONNREFUSED"))) true) !! 0%nat
  = Some (inl (CodeError "connection refused" ERR_TIMEOUT)).
Proof.
  apply (all_addresses_fail_rejection init
           (mkPendingDial "17" queued (Some "P") [unix "run/p2p.sock"] 0) refused
           (fun _ _ => CodeError "connection refused" (ERR_OTHER "ECONNREFUSED")) true).
  intros i addr _. reflexivity.
Defined.

Example two_addresses_aggregate :
  performDial (mkPendingDial "17" queued (Some "P")
                 [unix "run/p2p.sock"; tcp "1.2.3.4" "4001"] 0) refused
  = (error, inl (AggregateError
                   [CodeError "connection refused" (ERR_OTHER "ECONNREFUSED");
                    CodeError "connection refused" (ERR_OTHER "ECONNREFUSED")])).
Proof. reflexivity. Qed.

(** *** Joining a pending dial *)

Lemma find_first_match {A} (f : A -> bool) (l : list A) (d : A) :
  d ∈ l -> f d = true -> exists e, List.find f l = Some e.
Proof.
  intros Hin Hf. destruct (List.find f l) as [e|] eqn:E; [by exists e|].
  apply list_elem_of_In in Hin.
  pose proof (find_none f l E d Hin). congruence.
Qed.

Lemma find_snoc {A} (f : A -> bool) (l : list A) (x : A) :
  List.find f (l ++ [x]) =
  match List.find f l with
  | Some y => Some y
  | None => if f x then Some x else None
  end.
Proof.
  induction l as [|y l IH]; simpl; [done|]. by destruct (f y).
Qed.

Lemma sameTarget_peer toString P addrsToDial d :
  peerId d = Some P -> sameTarget toString (Some P) addrsToDial d = true.
Proof.
  intros Hd. unfold sameTarget. rewrite Hd. by rewrite bool_decide_eq_true_2.
Qed.

(** An invocation that follows another with the same target and the same
    answers of the collaborators, before the dial settles, awaits the
    promise of the first one and adds no entry. *)
Lemma dial_again toString c st peerId multiaddrs rid rid' :
  let first := dial toString c st peerId multiaddrs rid in
  dial toString c first.1 peerId multiaddrs rid' = first.
Proof.
  unfold dial.
  destruct (calculateMultiaddrs toString c peerId _) as [e|addrsToDial] eqn:Hc;
    cbn [fst]; [done|].
  destruct (List.find _ (pendingDials st)) as [existing|] eqn:Hfind; cbn [fst].
  - by rewrite Hfind.
  - cbn [pendingDials]. rewrite find_snoc, Hfind.
    unfold sameTarget at 1. cbn [DialQueue.peerId DialQueue.multiaddrs].
    destruct peerId as [p|]; by rewrite bool_decide_eq_true_2.
Qed.

(** C1 (amended). While a pending dial for peer P is in the list, an
    invocation of dial(P) that gets through the calculation of its
    addresses adds no pending dial: every such invocation awaits the
    promise of one and the same entry, the first of the list that matches,
    and so comes to what that promise settles with.  An entry matches when
    its peer id is P, or when the comma-joined string forms of its addresses
    equal those of the calculated addresses. *)
Theorem dial_dedup toString c st P multiaddrs addrsToDial d :
  d ∈ pendingDials st ->
  peerId d = Some P ->
  calculateMultiaddrs toString c (Some P)
    (map (fun m => mkAddress m false) multiaddrs) = inr addrsToDial ->
  exists existing,
    List.find (sameTarget toString (Some P) addrsToDial) (pendingDials st) = Some existing /\
    (forall rid,
       dial toString c st (Some P) multiaddrs rid = (st, Awaits (promise existing))) /\
    (forall rid st',
       outcome st' (dial toString c st (Some P) multiaddrs rid).2
       = settled st' !! promise existing).
Proof.
  intros Hin Hd Hc.
  destruct (find_first_match (sameTarget toString (Some P) addrsToDial)
              (pendingDials st) d Hin (sameTarget_peer toString P addrsToDial d Hd))
    as [existing Hfind].
  assert (Hdial : forall rid,
             dial toString c st (Some P) multiaddrs rid = (st, Awaits (promise existing))).
  { intros rid. unfold dial. by rewrite Hc, Hfind. }
  exists existing. split; [exact Hfind|]. split; [exact Hdial|].
  intros rid st'. by rewrite Hdial.
Qed.

Lemma dial_dedup_witness :
  let pending := mkPendingDial "17" queued (Some "P") [unix "run/p2p.sock"] 0 in
  let st := mkState [pending] 1 ∅ in
  let c := componentsWith sharedSocketBook in
  exists existing,
    List.find (sameTarget Multiaddr.toString (Some "P")
                 [mkAddress (unix "run/p2p.sock") false]) (pendingDials st)
    = Some existing /\
    (forall rid,
       dial Multiaddr.toString c st (Some "P") [] rid = (st, Awaits (promise existing))) /\
    (forall rid st',
       outcome st' (dial Multiaddr.toString c st (Some "P") [] rid).2
       = settled st' !! promise existing).
Proof.
  apply (dial_dedup Multiaddr.toString (componentsWith sharedSocketBook)
           (mkState [mkPendingDial "17" queued (Some "P") [unix "run/p2p.sock"] 0] 1 ∅)
           "P" [] [mkAddress (unix "run/p2p.sock") false]
           (mkPendingDial "17" queued (Some "P") [unix "run/p2p.sock"] 0)).
  - apply list_elem_of_here.
  - reflexivity.
  - reflexivity.
Defined.

(** The rule of the specification matches a dial that names a peer on the
    peer id alone.  The code also compares the address lists then: with two
    peers behind one unix socket, dial(P) started while a dial to Q is
    pending creates no entry and awaits the promise of the dial to Q. *)
Lemma dial_joins_other_peer :
  let c := componentsWith sharedSocketBook in
  let first := dial Multiaddr.toString c init (Some "Q") [] "17" in
  let second := dial Multiaddr.toString c first.1 (Some "P") [] "18" in
  calculateMultiaddrs Multiaddr.toString c (Some "P") []
    = inr [mkAddress (unix "run/p2p.sock") false] /\
  first.2 = Awaits 0 /\
  map peerId (pendingDials first.1) = [Some "Q"] /\
  second = (first.1, Awaits 0) /\
  List.find (specSameTarget (Some "P") [mkAddress (unix "run/p2p.sock") false])
            (pendingDials first.1) = None.
Proof. repeat split. Qed.

(** *** The candidate addresses of a dial *)

Section Candidates.

Variable toString : Multiaddr -> string.

Let key (a : Address) : string := toString (multiaddr a).

Lemma dedupeStep_keys acc a k :
  k ∈ map key (dedupeStep toString acc a) <-> k ∈ map key acc \/ k = key a.
Proof.
  induction acc as [|e rest IH]; simpl.
  - rewrite list_elem_of_singleton, elem_of_nil. tauto.
  - destruct (decide (toString (multiaddr e) = toString (multiaddr a))) as [Heq|Hne]; simpl.
    + rewrite !elem_of_cons. unfold key at 1 3. simpl. rewrite Heq. tauto.
    + rewrite !elem_of_cons, IH. tauto.
Qed.

Lemma dedupeStep_NoDup acc a :
  NoDup (map key acc) -> NoDup (map key (dedupeStep toString acc a)).
Proof.
  induction acc as [|e rest IH]; simpl; intros Hnd.
  - apply NoDup_singleton.
  - apply NoDup_cons in Hnd as [Hnotin Hnd].
    destruct (decide (toString (multiaddr e) = toString (multiaddr a))) as [Heq|Hne]; simpl.
    + apply NoDup_cons. split; [exact Hnotin | exact Hnd].
    + apply NoDup_cons. split; [|by apply IH].
      rewrite dedupeStep_keys. intros [Hin|Heq]; [done|]. by apply Hne.
Qed.

Lemma dedupeStep_certified acc a k :
  certifiedAmong toString (dedupeStep toString acc a) k
  = certifiedAmong toString acc k || (bool_decide (key a = k) && isCertified a).
Proof.
  unfold certifiedAmong, key.
  induction acc as [|e rest IH]; simpl.
  - by rewrite orb_false_r.
  - destruct (decide (toString (multiaddr e) = toString (multiaddr a))) as [Heq|Hne]; simpl.
    + rewrite Heq.
      destruct (bool_decide (toString (multiaddr a) = k)), (isCertified e),
        (isCertified a), (existsb _ rest); reflexivity.
    + rewrite IH. by rewrite orb_assoc.
Qed.

Lemma certifiedAmong_snoc l a k :
  certifiedAmong toString (l ++ [a]) k
  = certifiedAmong toString l k || (bool_decide (key a = k) && isCertified a).
Proof.
  unfold certifiedAmong. rewrite existsb_app. simpl. by rewrite orb_false_r.
Qed.

Lemma certifiedAmong_unique acc d :
  NoDup (map key acc) -> d ∈ acc ->
  certifiedAmong toString acc (key d) = isCertified d.
Proof.
  unfold certifiedAmong.
  induction acc as [|e rest IH]; simpl; intros Hnd Hin; [by apply elem_of_nil in Hin|].
  apply NoDup_cons in Hnd as [Hnotin Hnd].
  apply elem_of_cons in Hin as [->|Hin].
  - rewrite bool_decide_eq_true_2 by done. simpl.
    destruct (isCertified e); [done|]. simpl.
    apply not_true_is_false. intros Hex.
    apply existsb_exists in Hex as (x & Hx & Hb).
    apply andb_true_iff in Hb as [Hk _]. apply bool_decide_eq_true_1 in Hk.
    apply Hnotin. fold (key x) in Hk. fold (key e). rewrite <- Hk.
    apply list_elem_of_fmap_2. by apply list_elem_of_In.
  - rewrite (IH Hnd Hin).
    rewrite bool_decide_eq_false_2; [done|].
    intros Heq. apply Hnotin. fold (key e) in Heq. fold (key d) in Heq.
    rewrite Heq. by apply list_elem_of_fmap_2.
Qed.

Lemma dedupe_invariant l :
  forall acc seen,
    NoDup (map key acc) ->
    (forall k, certifiedAmong toString acc k = certifiedAmong toString seen k) ->
    NoDup (map key (foldl (dedupeStep toString) acc l)) /\
    (forall k, certifiedAmong toString (foldl (dedupeStep toString) acc l) k
               = certifiedAmong toString (seen ++ l) k).
Proof.
  induction l as [|a l IH]; intros acc seen Hnd Hcert; simpl.
  - rewrite app_nil_r. by split.
  - destruct (IH (dedupeStep toString acc a) (seen ++ [a])) as [H1 H2].
    + by apply dedupeStep_NoDup.
    + intros k. by rewrite dedupeStep_certified, certifiedAmong_snoc, Hcert.
    + split; [exact H1|]. intros k. by rewrite H2, <- app_assoc.
Qed.

(** No two deduplicated addresses have the same string form. *)
Lemma dedupe_NoDup l : NoDup (map key (dedupe toString l)).
Proof.
  destruct (dedupe_invariant l [] []) as [H _]; [apply NoDup_nil_2 | done | exact H].
Qed.

(** The flag of a deduplicated address is the OR of the flags of the
    addresses it stands for. *)
Lemma dedupe_certified l d :
  d ∈ dedupe toString l ->
  isCertified d = certifiedAmong toString l (key d).
Proof.
  intros Hin.
  destruct (dedupe_invariant l [] []) as [Hnd Hcert]; [apply NoDup_nil_2 | done |].
  rewrite <- (certifiedAmong_unique _ d Hnd Hin). apply Hcert.
Qed.

Lemma dedupeStep_multiaddr acc a d :
  d ∈ dedupeStep toString acc a ->
  multiaddr d ∈ map multiaddr acc \/ multiaddr d = multiaddr a.
Proof.
  induction acc as [|e rest IH]; simpl.
  - rewrite list_elem_of_singleton. intros ->. by right.
  - destruct (decide (toString (multiaddr e) = toString (multiaddr a))); simpl;
      rewrite !elem_of_cons.
    + intros [->|Hin]; [by left; left|].
      left. right. by apply (list_elem_of_fmap_2 multiaddr).
    + intros [->|Hin]; [by left; left|].
      destruct (IH Hin) as [?|?]; [left; by right | by right].
Qed.

Lemma foldl_dedupe_multiaddr l :
  forall acc d,
    d ∈ foldl (dedupeStep toString) acc l ->
    multiaddr d ∈ map multiaddr acc \/ multiaddr d ∈ map multiaddr l.
Proof.
  induction l as [|a l IH]; intros acc d Hin; simpl in *;
    [left; by apply (list_elem_of_fmap_2 multiaddr)|].
  destruct (IH _ _ Hin) as [Hacc|Hl].
  - apply list_elem_of_fmap in Hacc as (d' & Heq & Hd').
    rewrite Heq. destruct (dedupeStep_multiaddr acc a d' Hd') as [?| ->].
    + by left.
    + right. apply list_elem_of_here.
  - right. by apply list_elem_of_further.
Qed.

(** A deduplicated address is one of the addresses given. *)
Lemma dedupe_multiaddr l d :
  d ∈ dedupe toString l -> multiaddr d ∈ map multiaddr l.
Proof.
  intros Hin. destruct (foldl_dedupe_multiaddr l [] d Hin) as [H|H]; [|done].
  by apply elem_of_nil in H.
Qed.

Lemma foldl_dedupe_keys l :
  forall acc k,
    k ∈ map key (foldl (dedupeStep toString) acc l) <->
    k ∈ map key acc \/ k ∈ map key l.
Proof.
  induction l as [|a l IH]; intros acc k; simpl.
  - rewrite elem_of_nil. tauto.
  - rewrite IH, dedupeStep_keys, elem_of_cons. tauto.
Qed.

(** The string forms of the deduplicated addresses are those of the
    addresses given. *)
Lemma dedupe_keys l k :
  k ∈ map key (dedupe toString l) <-> k ∈ map key l.
Proof.
  unfold dedupe. rewrite foldl_dedupe_keys. simpl. rewrite elem_of_nil. tauto.
Qed.

End Candidates.





Lemma getPeerId_appended ma P :
  Multiaddr.getPeerId (Multiaddr.encapsulate ma (Multiaddr.p2p P)) = Some P.
Proof.
  unfold Multiaddr.getPeerId, Multiaddr.encapsulate, Multiaddr.p2p, Multiaddr.t.
  rewrite filter_app, filter_cons_True by done.
  rewrite filter_nil. by rewrite last_snoc.
Qed.







End DialQueueFacts.

(** ** Address manager *)

Module AddressManagerFacts.
Import AddressManager.

Section JsMapFacts.
Context {K V : Type} `{EqDecision K}.
Implicit Types (m : list (K * V)) (k : K) (v : V).

Lemma mapGet_mapSet m k k' v :
  mapGet k' (mapSet k v m) = if decide (k = k') then Some v else mapGet k' m.
Proof.
  induction m as [|[k0 v0] m IH]; simpl.
  - by destruct (decide (k = k')).
  - destruct (decide (k0 = k)) as [->|Hne]; simpl.
    + by destruct (decide (k = k')).
    + destruct (decide (k0 = k')) as [->|Hne'].
      * by rewrite decide_False by congruence.
      * exact IH.
Qed.





Lemma mapGet_None m k : k ∉ map fst m -> mapGet k m = None.
Proof.
  induction m as [|[k0 v0] m IH]; simpl; [done|].
  rewrite not_elem_of_cons. intros [Hne Hnotin].
  rewrite decide_False by congruence. by apply IH.
Qed.

Lemma mapGet_mapDelete m k k' :
  NoDup (map fst m) ->
  mapGet k' (mapDelete k m) = if decide (k = k') then None else mapGet k' m.
Proof.
  induction m as [|[k0 v0] m IH]; simpl; intros Hnd.
  - by destruct (decide (k = k')).
  - apply NoDup_cons in Hnd as [Hnotin Hnd].
    destruct (decide (k0 = k)) as [->|Hne]; simpl.
    + destruct (decide (k = k')) as [->|Hne']; [by apply mapGet_None|done].
    + destruct (decide (k0 = k')) as [->|Hne'].
      * by rewrite decide_False by congruence.
      * by apply IH.
Qed.

End JsMapFacts.

Example getAddresses_dns_mapping :
  getAddresses
    (calls (create "Self" [] [] None)
       [AddDNSMapping "example.com" ["1.2.3.4"];
        ConfirmObservedAddr (ip4tcp "5.6.7.8" "4001" ++ Multiaddr.p2p "Self")])
    [ip4tcp "1.2.3.4" "4001"]
  = [ip4tcp "1.2.3.4" "4001" ++ Multiaddr.p2p "Self";
     ip4tcp "5.6.7.8" "4001" ++ Multiaddr.p2p "Self";
     [Multiaddr.mkTuple Multiaddr.CODE_DNS4 (Some "example.com");
      Multiaddr.mkTuple Multiaddr.CODE_TCP (Some "4001")] ++ Multiaddr.p2p "Self"].
Proof. reflexivity. Qed.

(** *** The observed map along a sequence of calls *)









(** *** The advertised addresses *)







End AddressManagerFacts.

(** ** Identify service *)

Module IdentifyFacts.
Import Identify.



Section Consume.

Variable toString : Multiaddr -> string.










End Consume.

Example stale_record_discarded :
  storedRecord
    (consumeAll Multiaddr.toString ∅ "P"
       [recordMessage "P" 5 [DialQueue.tcp "1.2.3.4" "4001"];
        recordMessage "P" 3 [DialQueue.tcp "5.6.7.8" "4001"]]) "P"
  = Some (mkPeerRecord "P" 5 [DialQueue.tcp "1.2.3.4" "4001"]).
Proof. reflexivity. Qed.


(** *** Identity checks of identify *)

(** C3 (amended). When the publicKey of the identify message is absent,
    identify fails with ERR_MISSING_PUBLIC_KEY; when the peer id derived
    from it differs from the remote peer of the connection, or equals the
    node's own peer id, identify fails with ERR_INVALID_PEER.  In each case
    no peer:identify event is emitted and neither the peer store nor the
    address manager is updated. *)
Theorem identify_rejects_unverified_peer toString svc w connection message :
  match publicKey message with
  | None => True
  | Some key =>
      exists id, peerIdFromKeys svc key = inr id /\
                 (id ≠ remotePeer connection \/ id = selfPeerId svc)
  end ->
  exists err,
    identify toString svc w connection (Decoded message) = (w, connection, inl err) /\
    err_code err = Some (match publicKey message with
                         | None => ERR_MISSING_PUBLIC_KEY
                         | Some _ => ERR_INVALID_PEER
                         end).
Proof.
  intros H. unfold identify, _identify, closeStream, openStream.
  destruct connection as [remote st n]. simpl in *.
  destruct (publicKey message) as [key|]; [|eauto].
  destruct H as (id & -> & Hid).
  destruct (decide (remote ≠ id)) as [Hne|Heq]; [eauto|].
  destruct (decide (selfPeerId svc = id)) as [Hs|Hns]; [eauto|].
  exfalso. destruct Hid as [Hid|Hid]; [|by apply Hns].
  apply Heq. congruence.
Qed.

Lemma identify_rejects_unverified_peer_witness :
  exists err,
    identify Multiaddr.toString exampleService emptyWorld (mkConnection "P" open 0)
      (Decoded (messageWithKey (Some "k")))
    = (emptyWorld, mkConnection "P" open 0, inl err) /\
    err_code err = Some ERR_INVALID_PEER.
Proof.
  apply (identify_rejects_unverified_peer Multiaddr.toString exampleService emptyWorld
           (mkConnection "P" open 0) (messageWithKey (Some "k"))).
  simpl. exists "id-of-k". split; [reflexivity|]. left. discriminate.
Defined.

(** A message without a public key is rejected with
    ERR_MISSING_PUBLIC_KEY, not with ERR_INVALID_PEER. *)
Lemma missing_public_key_code :
  exists err,
    (identify Multiaddr.toString exampleService emptyWorld (mkConnection "P" open 0)
       (Decoded (messageWithKey None))).2 = inl err /\
    err_code err = Some ERR_MISSING_PUBLIC_KEY /\
    err_code err ≠ Some ERR_INVALID_PEER.
Proof. eexists. repeat split. discriminate. Qed.

(** *** Identify on connection:open *)

Lemma _identify_connection connection read :
  (_identify connection read).1 = connection.
Proof. destruct connection, read; reflexivity. Qed.

Lemma identify_connection toString svc w connection read :
  (identify toString svc w connection read).1.2 = connection.
Proof.
  unfold identify.
  pose proof (_identify_connection connection read) as Hc.
  destruct (_identify connection read) as [c received]. simpl in Hc. subst c.
  destruct received as [err|message]; [done|].
  destruct (publicKey message) as [key|]; [|done].
  destruct (peerIdFromKeys svc key) as [err|id]; [done|].
  repeat case_decide; try done.
  destruct (consumeIdentifyMessage _ _ _ _) as [store [err|signed]]; [done|].
  destruct (parseAll (listenAddrs message)); [done|].
  destruct (observedAddr message) as [[n [ma|]]|]; done.
Qed.

(** C4 (amended). When identify runs on a connection after
    connection:open, the connection is left as it was, open streams
    included, whatever identify comes to; a failure of identify, a mismatch
    of the identified peer id with the remote peer of the connection
    included, is logged and nothing else. *)
Theorem identify_failure_is_logged toString svc w connection read w' connection' err :
  identify toString svc w connection read = (w', connection', inl err) ->
  onConnectionOpen toString svc w connection read
  = ({| peerStore := peerStore w'; addressManager := addressManager w';
        events := events w'; logged := logged w' ++ [err] |}, connection) /\
  status (onConnectionOpen toString svc w connection read).2 = status connection.
Proof.
  intros H. pose proof (identify_connection toString svc w connection read) as Hc.
  unfold onConnectionOpen. rewrite H in *. simpl in Hc. by subst connection'.
Qed.

Lemma identify_failure_is_logged_witness :
  onConnectionOpen Multiaddr.toString exampleService emptyWorld
    (mkConnection "P" open 0) (Decoded (messageWithKey (Some "k")))
  = ({| peerStore := peerStore emptyWorld; addressManager := addressManager emptyWorld;
        events := events emptyWorld;
        logged := logged emptyWorld ++
                  [CodeError "identified peer does not match the expected peer"
                             ERR_INVALID_PEER] |},
     mkConnection "P" open 0) /\
  status (onConnectionOpen Multiaddr.toString exampleService emptyWorld
            (mkConnection "P" open 0) (Decoded (messageWithKey (Some "k")))).2 = open.
Proof.
  apply (identify_failure_is_logged Multiaddr.toString exampleService emptyWorld
           (mkConnection "P" open 0) (Decoded (messageWithKey (Some "k")))
           emptyWorld (mkConnection "P" open 0)).
  reflexivity.
Defined.

(** The identified key derives a peer id other than the remote peer of
    the connection: the error is logged and the connection stays open; it is
    not aborted. *)
Lemma mismatch_does_not_abort :
  let connection := mkConnection "P" open 2 in
  let r := onConnectionOpen Multiaddr.toString exampleService emptyWorld connection
             (Decoded (messageWithKey (Some "k"))) in
  peerIdFromKeys exampleService "k" = inr "id-of-k" /\
  "id-of-k" ≠ remotePeer connection /\
  logged r.1 = [CodeError "identified peer does not match the expected peer"
                          ERR_INVALID_PEER] /\
  r.2 = connection /\
  status r.2 = open /\
  r.2 ≠ abort connection.
Proof. repeat split; discriminate. Qed.

End IdentifyFacts.

(** ** Node lifecycle *)

Module Libp2pNodeFacts.
Import Libp2pNode.

Section WithServices.

Context {W : Type}.
Implicit Type n : Node W.

Lemma stop_not_started n : started (stop n).1 = false.
Proof.
  unfold stop. destruct (started n) eqn:Hs; cbn [negb]; [|done].
  by destruct (runPhases _ (world n)).
Qed.

Lemma start_resolved_started n n' : start n = (n', None) -> started n' = true.
Proof.
  unfold start. destruct (started n) eqn:Hs.
  - by intros [= <-].
  - destruct (runPhases _ (world n)) as [w [err|]].
    + destruct (stop _) as [n'' [err'|]]; discriminate.
    + by intros [= <-].
Qed.

(** C10. start() on a started node and stop() on a node that is not
    started return at once: the node is left as it is and no method of any
    service runs.  Hence start() followed by start() comes to what one
    start() comes to, and the same for stop(). *)
Theorem start_stop_idempotent n :
  (started n = true -> start n = (n, None)) /\
  (started n = false -> stop n = (n, None)) /\
  andThen start start n = start n /\
  andThen stop stop n = stop n.
Proof.
  split; [|split; [|split]].
  - intros Hs. unfold start. by rewrite Hs.
  - intros Hs. unfold stop. by rewrite Hs.
  - unfold andThen. destruct (start n) as [n' [err|]] eqn:Hstart; [done|].
    apply start_resolved_started in Hstart. unfold start. by rewrite Hstart.
  - unfold andThen. pose proof (stop_not_started n) as Hs.
    destruct (stop n) as [n' [err|]]; [done|].
    simpl in Hs. unfold stop. by rewrite Hs.
Qed.

End WithServices.

Lemma start_stop_idempotent_witness :
  start (exampleNode true) = (exampleNode true, None) /\
  stop (exampleNode false) = (exampleNode false, None).
Proof.
  split.
  - exact (proj1 (start_stop_idempotent (exampleNode true)) eq_refl).
  - exact (proj1 (proj2 (start_stop_idempotent (exampleNode false))) eq_refl).
Defined.

Example start_runs_hooks_once :
  world (andThen start start (exampleNode false)).1
  = ["start identify"; "start dht"; "afterStart identify"; "afterStart dht"].
Proof. reflexivity. Qed.

End Libp2pNodeFacts.

(** ** Dial queue: further properties *)

Module DialQueueRunsFacts.
Import DialQueue DialQueueRuns.
Local Open Scope Z_scope.

(** X1. Invocations of dial with the same argument that follow each other
    before the dial settles all come to what the first one comes to (the
    same promise, or the same error), and after the first one the queue does
    not change: at most one pending dial is added, however many callers
    there are. *)
Theorem dialMany_shares_first toString c st peerId multiaddrs rid rids :
  dialMany toString c st peerId multiaddrs (rid :: rids)
  = ((dial toString c st peerId multiaddrs rid).1,
     repeat (dial toString c st peerId multiaddrs rid).2 (S (length rids))).
Proof.
  cbn [dialMany].
  pose proof (fun rid' => DialQueueFacts.dial_again toString c st peerId multiaddrs rid rid')
    as Hagain. cbn zeta in Hagain.
  destruct (dial toString c st peerId multiaddrs rid) as [st1 r] eqn:Hfirst.
  cbn [fst snd] in *.
  assert (Hrest : dialMany toString c st1 peerId multiaddrs rids
                  = (st1, repeat r (length rids))).
  { induction rids as [|rid' rids IH]; [reflexivity|].
    cbn [dialMany]. rewrite (Hagain rid'), IH. reflexivity. }
  by rewrite Hrest.
Qed.

Example ten_dials_one_entry :
  let r := dialMany Multiaddr.toString (componentsWith sharedSocketBook) init (Some "P") []
             ["0"; "1"; "2"; "3"; "4"; "5"; "6"; "7"; "8"; "9"] in
  length (pendingDials r.1) = 1%nat /\ r.2 = repeat (Awaits 0) 10.
Proof. split; reflexivity. Qed.

Lemma insertSorted_length compare a l :
  length (insertSorted compare a l) = S (length l).
Proof.
  induction l as [|b rest IH]; simpl; [done|].
  destruct (compare a b <=? 0); simpl; [done|]. by rewrite IH.
Qed.

Lemma sort_length compare l : length (sort compare l) = length l.
Proof.
  induction l as [|a l IH]; simpl; [done|]. by rewrite insertSorted_length, IH.
Qed.

Lemma gate_length c l : (length (gate c l) <= length l)%nat.
Proof.
  unfold gate. destruct (denyDialMultiaddr c); [apply length_filter | done].
Qed.

Lemma calculateMultiaddrs_inr toString c peerId addrs out :
  calculateMultiaddrs toString c peerId addrs = inr out ->
  exists loaded,
    loadAddrs c peerId addrs = inr loaded /\
    dedupe toString (filteredAddrs c loaded) ≠ [] /\
    (length (dedupe toString (filteredAddrs c loaded)) <= maxPeerAddrsToDial c)%nat /\
    out = sort (addressSorter c)
            (gate c (match peerId with
                     | Some p => map (appendPeerId p) (dedupe toString (filteredAddrs c loaded))
                     | None => dedupe toString (filteredAddrs c loaded)
                     end)).
Proof.
  unfold calculateMultiaddrs.
  destruct (loadAddrs c peerId addrs) as [e|loaded]; [discriminate|]. simpl.
  repeat case_decide; try discriminate. intros [= <-].
  exists loaded. repeat split; [|lia].
  intros Hnil. by rewrite Hnil in *.
Qed.

(** X2. The candidate list of a dial never holds more than
    maxPeerAddrsToDial addresses, and it is not empty unless the
    denyDialMultiaddr gater denied an address. *)
Theorem calculateMultiaddrs_bounds toString c peerId addrs out :
  calculateMultiaddrs toString c peerId addrs = inr out ->
  (length out <= maxPeerAddrsToDial c)%nat /\
  (denyDialMultiaddr c = None -> out ≠ []).
Proof.
  intros Hc. apply calculateMultiaddrs_inr in Hc as (loaded & _ & Hne & Hmax & ->).
  split.
  - rewrite sort_length. etrans; [apply gate_length|].
    destruct peerId; by rewrite ?length_map.
  - intros Hgate Hnil. apply (f_equal length) in Hnil.
    rewrite sort_length in Hnil. unfold gate in Hnil. rewrite Hgate in Hnil.
    destruct (dedupe toString (filteredAddrs c loaded)) as [|d ds]; [done|].
    destruct peerId; discriminate.
Qed.

Lemma calculateMultiaddrs_bounds_witness :
  (length [mkAddress (unix "run/p2p.sock") false] <= 25)%nat /\
  (denyDialMultiaddr (componentsWith sharedSocketBook) = None ->
   [mkAddress (unix "run/p2p.sock") false] ≠ []).
Proof.
  apply (calculateMultiaddrs_bounds Multiaddr.toString (componentsWith sharedSocketBook)
           (Some "P") [] [mkAddress (unix "run/p2p.sock") false]).
  reflexivity.
Defined.

(** X3. The emptiness check of the candidate list comes before the
    denyDialMultiaddr gater: when the gater denies every address, the
    address calculation still succeeds, with no address, and the dial then
    rejects with an AggregateError that holds no error (not with
    ERR_NO_VALID_ADDRESSES). *)
Theorem all_denied_empty_aggregate toString c peerId addrs out deny :
  denyDialMultiaddr c = Some deny ->
  (forall ma, deny ma = true) ->
  calculateMultiaddrs toString c peerId addrs = inr out ->
  out = [] /\
  forall pendingDial attempt,
    multiaddrs pendingDial = map multiaddr out ->
    performDial pendingDial attempt = (error, inl (AggregateError [])).
Proof.
  intros Hgate Hdeny Hc.
  apply calculateMultiaddrs_inr in Hc as (loaded & _ & _ & _ & ->).
  assert (Hnil : forall l, gate c l = []).
  { intros l. unfold gate. rewrite Hgate.
    induction l as [|a l IH]; [done|].
    rewrite filter_cons_False; [done|]. rewrite Hdeny. discriminate. }
  rewrite Hnil. split; [reflexivity|].
  intros pendingDial attempt Hm. unfold performDial. by rewrite Hm.
Qed.

Lemma all_denied_empty_aggregate_witness :
  ([] : list Address) = [] /\
  forall pendingDial attempt,
    multiaddrs pendingDial = map multiaddr [] ->
    performDial pendingDial attempt = (error, inl (AggregateError [])).
Proof.
  apply (all_denied_empty_aggregate Multiaddr.toString (denyingComponents sharedSocketBook)
           (Some "P") [] [] (fun _ => true)).
  - reflexivity.
  - reflexivity.
  - reflexivity.
Defined.

(** *** The race of the addresses *)

Lemma firstFulfilled_None {A} (l : list (nat * (Err + A))) t v :
  firstFulfilled l = None -> (t, inr v) ∉ l.
Proof.
  induction l as [|[t0 [e|v0]] l IH]; simpl; intros H Hin.
  - by apply elem_of_nil in Hin.
  - apply elem_of_cons in Hin as [[=]|Hin]. by apply IH.
  - destruct (firstFulfilled l) as [[t1 ?]|]; [destruct (t1 <? t0)%nat|]; discriminate.
Qed.

Lemma firstFulfilled_Some {A} (l : list (nat * (Err + A))) t v :
  firstFulfilled l = Some (t, v) ->
  (t, inr v) ∈ l /\ forall t' v', (t', inr v') ∈ l -> (t <= t')%nat.
Proof.
  revert t v. induction l as [|[t0 [e|v0]] l IH]; intros t v; simpl; [done| |].
  - intros H. destruct (IH _ _ H) as [Hin Hmin]. split; [by right|].
    intros t' v' Hin'. apply elem_of_cons in Hin' as [[=]|Hin']. eauto.
  - destruct (firstFulfilled l) as [[t1 v1]|] eqn:Hrest.
    + destruct (IH _ _ eq_refl) as [Hin Hmin].
      destruct (t1 <? t0)%nat eqn:Hlt; intros [= <- <-].
      * split; [by right|]. intros t' v' Hin'.
        apply elem_of_cons in Hin' as [[= -> ->]|Hin']; [|eauto].
        apply Nat.ltb_lt in Hlt. lia.
      * split; [by left|]. intros t' v' Hin'.
        apply elem_of_cons in Hin' as [[= -> ->]|Hin']; [lia|].
        apply Nat.ltb_ge in Hlt. specialize (Hmin _ _ Hin'). lia.
    + intros [= <- <-]. split; [by left|]. intros t' v' Hin'.
      apply elem_of_cons in Hin' as [[= -> ->]|Hin']; [lia|].
      exfalso. by apply (firstFulfilled_None l t' v' Hrest).
Qed.

(** X4. When the dial of at least one address succeeds, [performDial]
    resolves with the connection of an address whose dial succeeded, and no
    successful dial settled before that one: the first success wins; the
    errors of the other addresses are not reported. *)
Theorem performDial_first_success pendingDial attempt i addr conn0 :
  multiaddrs pendingDial !! i = Some addr ->
  runAttempt (attempt i addr) = inr conn0 ->
  exists j addr' conn,
    multiaddrs pendingDial !! j = Some addr' /\
    runAttempt (attempt j addr') = inr conn /\
    performDial pendingDial attempt = (success, inr conn) /\
    forall k a c,
      multiaddrs pendingDial !! k = Some a ->
      runAttempt (attempt k a) = inr c ->
      (settledAt (attempt j addr') <= settledAt (attempt k a))%nat.
Proof.
  intros Hi Hrun. unfold performDial, promiseAny.
  set (jobs := imap (fun i addr => (settledAt (attempt i addr), runAttempt (attempt i addr)))
                    (multiaddrs pendingDial)).
  assert (Hjob : forall k a c, multiaddrs pendingDial !! k = Some a ->
                               runAttempt (attempt k a) = inr c ->
                               (settledAt (attempt k a), inr c) ∈ jobs).
  { intros k a c Hk Hc. apply list_elem_of_lookup. exists k.
    subst jobs. rewrite list_lookup_imap, Hk. simpl. by rewrite Hc. }
  destruct (firstFulfilled jobs) as [[t conn]|] eqn:Hfirst.
  - apply firstFulfilled_Some in Hfirst as [Hin Hmin].
    apply list_elem_of_lookup in Hin as [j Hj].
    subst jobs. rewrite list_lookup_imap in Hj.
    destruct (multiaddrs pendingDial !! j) as [addr'|] eqn:Hj'; [|done].
    simpl in Hj. injection Hj as <- Hconn.
    exists j, addr', conn. split; [done|]. split; [done|]. split; [done|].
    intros k a c Hk Hc. by apply (Hmin _ c), Hjob.
  - exfalso.
    apply (firstFulfilled_None jobs (settledAt (attempt i addr)) conn0 Hfirst).
    by apply Hjob.
Qed.

Lemma performDial_first_success_witness :
  exists j addr' conn,
    [tcp "1.2.3.4" "4001"; tcp "5.6.7.8" "4001"] !! j = Some addr' /\
    runAttempt (secondAnswers j addr') = inr conn /\
    performDial (mkPendingDial "17" queued (Some "P")
                   [tcp "1.2.3.4" "4001"; tcp "5.6.7.8" "4001"] 0) secondAnswers
    = (success, inr conn) /\
    forall k a c,
      [tcp "1.2.3.4" "4001"; tcp "5.6.7.8" "4001"] !! k = Some a ->
      runAttempt (secondAnswers k a) = inr c ->
      (settledAt (secondAnswers j addr') <= settledAt (secondAnswers k a))%nat.
Proof.
  apply (performDial_first_success
           (mkPendingDial "17" queued (Some "P")
              [tcp "1.2.3.4" "4001"; tcp "5.6.7.8" "4001"] 0)
           secondAnswers 1%nat (tcp "5.6.7.8" "4001")
           (mkConnection "P" (tcp "5.6.7.8" "4001"))).
  - reflexivity.
  - reflexivity.
Defined.

Lemma resolveOne_multiaddrs c a :
  map multiaddr (resolveOne c a) = resolveMultiaddrs c (multiaddr a).
Proof.
  unfold resolveOne.
  destruct (resolveMultiaddrs c (multiaddr a)) as [|r [|r' l]]; [done| |].
  - case_decide; [by subst|done].
  - cbn [map multiaddr]. f_equal. f_equal. rewrite map_map. by rewrite map_id.
Qed.

Lemma filteredAddrs_nil c loaded :
  filteredAddrs c loaded = [] <->
  forall a r, a ∈ loaded -> r ∈ resolveMultiaddrs c (multiaddr a) ->
              transportForMultiaddr c r = false.
Proof.
  unfold filteredAddrs. split.
  - intros Hnil a r Ha Hr. rewrite <- resolveOne_multiaddrs in Hr.
    apply list_elem_of_fmap in Hr as (x & -> & Hx).
    apply not_true_is_false. intros Ht.
    assert (Hin : x ∈ filter (fun a => transportForMultiaddr c (multiaddr a) = true)
                         (concat (map (resolveOne c) loaded))).
    { apply list_elem_of_filter. split; [done|].
      apply list_elem_of_In, in_concat. exists (resolveOne c a).
      split; [apply in_map; by apply list_elem_of_In | by apply list_elem_of_In]. }
    rewrite Hnil in Hin. by apply elem_of_nil in Hin.
  - intros Hall.
    destruct (filter _ _) as [|x l] eqn:Hf; [done|]. exfalso.
    assert (Hin : x ∈ filter (fun a => transportForMultiaddr c (multiaddr a) = true)
                         (concat (map (resolveOne c) loaded)))
      by (rewrite Hf; apply list_elem_of_here).
    apply list_elem_of_filter in Hin as [Ht Hin].
    apply list_elem_of_In, in_concat in Hin as (k & Hk & Hx).
    apply in_map_iff in Hk as (a & <- & Ha).
    rewrite (Hall a (multiaddr x)) in Ht; [discriminate| by apply list_elem_of_In |].
    rewrite <- resolveOne_multiaddrs. apply (list_elem_of_fmap_2 multiaddr).
    by apply list_elem_of_In.
Qed.

Lemma dedupe_nil toString l : dedupe toString l = [] <-> l = [].
Proof.
  split; [|by intros ->].
  destruct l as [|a l]; [done|]. intros Hnil. exfalso.
  assert (Hk : toString (multiaddr a)
               ∈ map (fun x => toString (multiaddr x)) (dedupe toString (a :: l))).
  { apply (DialQueueFacts.dedupe_keys toString). apply list_elem_of_here. }
  rewrite Hnil in Hk. by apply elem_of_nil in Hk.
Qed.

(** X9. Once the target passed the checks on its peer id, the address
    calculation fails with ERR_NO_VALID_ADDRESSES exactly when none of the
    addresses that the loaded addresses resolve to has a transport; an
    address that resolves to nothing counts for nothing. *)
Theorem no_valid_addresses toString c peerId addrs loaded :
  loadAddrs c peerId addrs = inr loaded ->
  calculateMultiaddrs toString c peerId addrs
  = inl (CodeError "The dial request has no valid addresses" ERR_NO_VALID_ADDRESSES)
  <->
  forall a r, a ∈ loaded -> r ∈ resolveMultiaddrs c (multiaddr a) ->
              transportForMultiaddr c r = false.
Proof.
  intros Hload. rewrite <- filteredAddrs_nil, <- (dedupe_nil toString).
  unfold calculateMultiaddrs. rewrite Hload. simpl.
  destruct (dedupe toString (filteredAddrs c loaded)) as [|d ds]; simpl.
  - done.
  - case_decide; split; discriminate.
Qed.

Lemma no_valid_addresses_witness :
  calculateMultiaddrs Multiaddr.toString (componentsWith (fun _ => [])) (Some "P") []
  = inl (CodeError "The dial request has no valid addresses" ERR_NO_VALID_ADDRESSES)
  <->
  forall a r, a ∈ ([] : list Address) ->
              r ∈ resolveMultiaddrs (componentsWith (fun _ => [])) (multiaddr a) ->
              transportForMultiaddr (componentsWith (fun _ => [])) r = false.
Proof.
  apply (no_valid_addresses Multiaddr.toString (componentsWith (fun _ => [])) (Some "P") [] []).
  reflexivity.
Defined.

(** *** The life of a pending dial *)

Lemma filter_all {A} (P : A -> Prop) `{forall x, Decision (P x)} (l : list A) :
  (forall x, x ∈ l -> P x) -> filter P l = l.
Proof.
  induction l as [|x l IH]; intros Hall; [done|].
  rewrite filter_cons_True by apply Hall, list_elem_of_here.
  rewrite IH; [done|]. intros y Hy. by apply Hall, list_elem_of_further.
Qed.



(** *** Appending the peer id *)

Lemma lastProtoIsPath_appended ma P :
  Multiaddr.lastProtoIsPath (Multiaddr.encapsulate ma (Multiaddr.p2p P)) = false.
Proof.
  unfold Multiaddr.lastProtoIsPath, Multiaddr.encapsulate, Multiaddr.p2p.
  by rewrite last_snoc.
Qed.

(** X6. Appending the peer id is idempotent, and it never changes the
    certified flag: an address that went through the step is left alone by a
    second pass, so the candidates of a dial can be dialled again as they
    are. *)
Theorem appendPeerId_idempotent P addr :
  appendPeerId P (appendPeerId P addr) = appendPeerId P addr /\
  isCertified (appendPeerId P addr) = isCertified addr.
Proof.
  unfold appendPeerId.
  destruct (Multiaddr.lastProtoIsPath (multiaddr addr)) eqn:Hpath.
  - by rewrite Hpath.
  - destruct (Multiaddr.getPeerId (multiaddr addr)) as [q|] eqn:Hq.
    + by rewrite Hpath, Hq.
    + cbn [multiaddr isCertified].
      by rewrite lastProtoIsPath_appended, DialQueueFacts.getPeerId_appended.
Qed.

End DialQueueRunsFacts.

(** ** Resolving multiaddrs *)

Module ConnectionManagerUtilsFacts.
Import ConnectionManagerUtils.

Lemma pushNew_elem array newM x :
  x ∈ pushNew array newM <-> x ∈ array \/ x = newM.
Proof.
  unfold pushNew. case_decide.
  - split; [by left | by intros [?| ->]].
  - rewrite elem_of_app, list_elem_of_singleton. tauto.
Qed.

Lemma pushNew_NoDup array newM : NoDup array -> NoDup (pushNew array newM).
Proof.
  intros Hnd. unfold pushNew. case_decide; [done|].
  apply NoDup_app. split; [done|]. split; [|apply NoDup_singleton].
  intros x Hx Hx'. apply list_elem_of_singleton in Hx'. by subst.
Qed.

Lemma foldl_pushNew l :
  forall acc,
    NoDup acc ->
    NoDup (foldl pushNew acc l) /\
    forall x, x ∈ foldl pushNew acc l <-> x ∈ acc \/ x ∈ l.
Proof.
  induction l as [|a l IH]; intros acc Hnd; simpl.
  - split; [done|]. intros x. rewrite elem_of_nil. tauto.
  - destruct (IH (pushNew acc a) (pushNew_NoDup acc a Hnd)) as [H1 H2].
    split; [done|]. intros x. rewrite H2, pushNew_elem, elem_of_cons. tauto.
Qed.

Lemma elem_of_concat {A} (ls : list (list A)) x :
  x ∈ concat ls <-> exists l, l ∈ ls /\ x ∈ l.
Proof.
  rewrite list_elem_of_In, in_concat. split.
  - intros (l & Hl & Hx). exists l. by rewrite !list_elem_of_In.
  - intros (l & Hl & Hx). exists l. by rewrite <- !list_elem_of_In.
Qed.

Lemma mapM_elem {A B} (f : A -> option B) (l : list A) (k : list B) y :
  mapM f l = Some k -> y ∈ k -> exists x, x ∈ l /\ f x = Some y.
Proof.
  intros Hm Hy. apply mapM_Some in Hm.
  apply list_elem_of_lookup in Hy as [i Hi].
  destruct (Forall2_lookup_r _ _ _ _ _ Hm Hi) as (x & Hx & Hfx).
  exists x. split; [|done]. by apply list_elem_of_lookup_2 in Hx.
Qed.

(** X7. Whatever the resolver answers, the addresses that
    [resolveMultiaddrs] returns are fully resolved (none of them has a
    dnsaddr component left) and pairwise distinct. *)
Theorem resolveMultiaddrs_resolved fuel dns :
  forall ma out,
    resolveMultiaddrs fuel dns ma = Some out ->
    NoDup out /\ forall r, r ∈ out -> resolvable r = false.
Proof.
  induction fuel as [|fuel IH]; intros ma out; simpl; [discriminate|].
  destruct (resolvable ma) eqn:Hres; simpl.
  - destruct (mapM _ _) as [recursive|] eqn:Hm; [|discriminate].
    intros [= <-].
    destruct (foldl_pushNew (concat recursive) [] (NoDup_nil_2)) as [Hnd Hin].
    split; [done|]. intros r Hr. apply Hin in Hr as [Hr|Hr]; [by apply elem_of_nil in Hr|].
    apply elem_of_concat in Hr as (k & Hk & Hr).
    destruct (mapM_elem _ _ _ _ Hm Hk) as (nm & _ & Hnm).
    by apply (IH nm k Hnm).
  - intros [= <-]. split; [apply NoDup_singleton|].
    intros r Hr. apply list_elem_of_singleton in Hr. by subst.
Qed.

Lemma resolveMultiaddrs_resolved_witness :
  NoDup [DialQueue.tcp "1.2.3.4" "4001"] /\
  forall r, r ∈ [DialQueue.tcp "1.2.3.4" "4001"] -> resolvable r = false.
Proof.
  apply (resolveMultiaddrs_resolved 2 exampleDns (dnsaddr "bootstrap.example")).
  reflexivity.
Defined.

Lemma mapM_plain fuel dns (l : list Multiaddr) :
  (forall r, r ∈ l -> resolvable r = false) ->
  mapM (resolveMultiaddrs (S fuel) dns) l = Some (map (fun r => [r]) l).
Proof.
  intros Hplain. apply mapM_Some.
  induction l as [|r l IH]; cbn [map]; constructor.
  - cbn [resolveMultiaddrs]. by rewrite (Hplain r) by apply list_elem_of_here.
  - apply IH. intros r' Hr'. by apply Hplain, list_elem_of_further.
Qed.

Lemma concat_singletons {A} (l : list A) : concat (map (fun r => [r]) l) = l.
Proof. induction l as [|x l IH]; simpl; [done|]. by rewrite IH. Qed.

(** X8. When the entries of the record of an address are plain addresses,
    two levels of recursion are enough: [resolveMultiaddrs] returns the
    address itself if it has no dnsaddr component, and otherwise the distinct
    entries of its record in their order; in particular an address whose
    lookup throws resolves to no address at all, not to an error. *)
Theorem resolveMultiaddrs_plain_record fuel dns ma :
  (forall r, r ∈ resolveRecord dns ma -> resolvable r = false) ->
  resolveMultiaddrs (S (S fuel)) dns ma
  = Some (if resolvable ma then foldl pushNew [] (resolveRecord dns ma) else [ma]).
Proof.
  intros Hplain. cbn [resolveMultiaddrs].
  destruct (resolvable ma); cbn [negb]; [|done].
  change (mapM _ (resolveRecord dns ma)) with
    (mapM (resolveMultiaddrs (S fuel) dns) (resolveRecord dns ma)).
  by rewrite (mapM_plain fuel dns _ Hplain), concat_singletons.
Qed.

Lemma resolveMultiaddrs_plain_record_witness :
  resolveMultiaddrs 2 exampleDns (dnsaddr "nowhere.example") = Some [].
Proof.
  apply (resolveMultiaddrs_plain_record 0 exampleDns (dnsaddr "nowhere.example")).
  intros r Hr. by apply elem_of_nil in Hr.
Defined.

End ConnectionManagerUtilsFacts.

(** ** Address manager: further properties *)

Module AddressManagerUpdatesFacts.
Import AddressManager AddressManagerUpdates.

Lemma decapsulateTuple_snoc ma tu :
  Multiaddr.decapsulateTuple (ma ++ [tu]) tu = Some ma.
Proof.
  induction ma as [|x ma IH]; simpl.
  - by rewrite decide_True.
  - by rewrite IH.
Qed.

Lemma stripPeerId_appended ma self :
  stripPeerId (Multiaddr.encapsulate ma (Multiaddr.p2p self)) self = ma.
Proof.
  unfold stripPeerId. rewrite DialQueueFacts.getPeerId_appended.
  rewrite decide_True by done.
  unfold Multiaddr.encapsulate, Multiaddr.p2p. by rewrite decapsulateTuple_snoc.
Qed.

Lemma stripPeerId_foreign ma self :
  Multiaddr.getPeerId ma ≠ Some self -> stripPeerId ma self = ma.
Proof.
  intros Hne. unfold stripPeerId.
  destruct (Multiaddr.getPeerId ma) as [q|]; [|done].
  rewrite decide_False; [done|]. intros ->. by apply Hne.
Qed.

(** X10. An observed address is handled alike with and without the node's
    own peer id at its end: adding, confirming or removing
    [ma/p2p/<self>] does what adding, confirming or removing [ma] does. *)
Theorem own_peer_id_is_stripped s ma :
  Multiaddr.getPeerId ma ≠ Some (peerId s) ->
  let ma' := Multiaddr.encapsulate ma (Multiaddr.p2p (peerId s)) in
  addObservedAddr s ma' = addObservedAddr s ma /\
  confirmObservedAddr s ma' = confirmObservedAddr s ma /\
  removeObservedAddr s ma' = removeObservedAddr s ma.
Proof.
  intros Hne ma'. subst ma'.
  unfold addObservedAddr, confirmObservedAddr, removeObservedAddr.
  by rewrite stripPeerId_appended, (stripPeerId_foreign ma _ Hne).
Qed.

Lemma own_peer_id_is_stripped_witness :
  let s := create "Self" [] [] None in
  let ma := ip4tcp "1.2.3.4" "4001" in
  let ma' := Multiaddr.encapsulate ma (Multiaddr.p2p (peerId s)) in
  addObservedAddr s ma' = addObservedAddr s ma /\
  confirmObservedAddr s ma' = confirmObservedAddr s ma /\
  removeObservedAddr s ma' = removeObservedAddr s ma.
Proof.
  apply (own_peer_id_is_stripped (create "Self" [] [] None) (ip4tcp "1.2.3.4" "4001")).
  discriminate.
Defined.

Lemma mapSet_absent {K V} `{EqDecision K} (m : list (K * V)) k v :
  mapGet k m = None -> mapSet k v m = m ++ [(k, v)].
Proof.
  induction m as [|[k0 v0] m IH]; simpl; [done|].
  destruct (decide (k0 = k)); [discriminate|]. intros H. by rewrite IH.
Qed.

Lemma confidentAddrs_add s a :
  confidentAddrs (addObservedAddr s a) = confidentAddrs s.
Proof.
  unfold addObservedAddr, mapHas, confidentAddrs.
  destruct (mapGet _ (observed s)) eqn:Hget; [done|].
  cbn [observed withObserved]. rewrite (mapSet_absent _ _ _ Hget), filter_app.
  rewrite filter_cons_False by (cbn; discriminate).
  by rewrite filter_nil, app_nil_r.
Qed.

(** X11. Observing an address changes nothing of what the node
    advertises: [getAddresses()] is the same before and after
    [addObservedAddr], whatever the announce filter; and observing the same
    address again changes nothing at all. *)
Theorem observing_keeps_advertised s a transportAddrs :
  getAddresses (addObservedAddr s a) transportAddrs = getAddresses s transportAddrs /\
  addObservedAddr (addObservedAddr s a) a = addObservedAddr s a.
Proof.
  split.
  - unfold getAddresses, baseAddrs. rewrite confidentAddrs_add.
    unfold addObservedAddr. by destruct (mapHas _ _).
  - destruct (mapHas (stripPeerId a (peerId s)) (observed s)) eqn:Hhas.
    + assert (Hs : addObservedAddr s a = s)
        by (unfold addObservedAddr; by rewrite Hhas).
      by rewrite !Hs.
    + assert (Hs : addObservedAddr s a
                   = withObserved s (mapSet (stripPeerId a (peerId s))
                                            {| confident := false |} (observed s)))
        by (unfold addObservedAddr; by rewrite Hhas).
      rewrite Hs. unfold addObservedAddr. cbn [peerId observed withObserved].
      unfold mapHas. rewrite AddressManagerFacts.mapGet_mapSet.
      by rewrite decide_True.
Qed.


(** X13. A confirmation updates the peer store only when it changes the
    confidence in the address: after [confirmObservedAddr(a)], confirming
    [a] again, in any form that differs by the node's own peer id only, does
    not update the store; and a confirmation does update it exactly when the
    address was not held with confidence. *)
Theorem confirm_updates_once s a :
  confirmUpdates s a = negb (isConfident s (stripPeerId a (peerId s))) /\
  forall b, stripPeerId b (peerId s) = stripPeerId a (peerId s) ->
            confirmUpdates (confirmObservedAddr s a) b = false.
Proof.
  split.
  - unfold confirmUpdates, isConfident. by destruct (mapGet _ _).
  - intros b Hb. unfold confirmUpdates, confirmObservedAddr.
    cbn [peerId observed withObserved]. rewrite Hb.
    rewrite AddressManagerFacts.mapGet_mapSet. by rewrite decide_True.
Qed.

Lemma mapDelete_snoc {K V} `{EqDecision K} (m : list (K * V)) k v :
  mapGet k m = None -> mapDelete k (m ++ [(k, v)]) = m.
Proof.
  induction m as [|[k0 v0] m IH]; simpl.
  - by rewrite decide_True.
  - destruct (decide (k0 = k)); [discriminate|]. intros H. by rewrite IH.
Qed.

Lemma mapGet_elem {K V} `{EqDecision K} (m : list (K * V)) k v :
  mapGet k m = Some v -> (k, v) ∈ m.
Proof.
  induction m as [|[k0 v0] m IH]; simpl; [done|].
  destruct (decide (k0 = k)) as [->|Hne].
  - intros [= ->]. apply list_elem_of_here.
  - intros H. apply list_elem_of_further. by apply IH.
Qed.

(** X14. Removing an observed address takes it out of the observed
    addresses, whatever confidence it had, and leaves the confidence in
    every other address as it was; removing an address right after it was
    first observed gives back the manager as it was before. *)
Theorem remove_observed s a :
  NoDup (getObservedAddrs s) ->
  let k := stripPeerId a (peerId s) in
  (k ∉ getObservedAddrs (removeObservedAddr s a)) /\
  (forall k', k' ≠ k ->
     isConfident (removeObservedAddr s a) k' = isConfident s k') /\
  (k ∉ getObservedAddrs s -> removeObservedAddr (addObservedAddr s a) a = s).
Proof.
  intros Hnd k. unfold getObservedAddrs in *. split; [|split].
  - unfold removeObservedAddr. cbn [observed withObserved]. fold k.
    intros Hin. apply list_elem_of_fmap in Hin as ([k0 v] & Hk & Hin).
    simpl in Hk. subst k0.
    assert (Hget : mapGet k (mapDelete k (observed s)) = None).
    { rewrite AddressManagerFacts.mapGet_mapDelete by done. by rewrite decide_True. }
    assert (Hnotin : k ∉ map fst (mapDelete k (observed s))).
    { intros Hin'. clear Hin.
      induction (mapDelete k (observed s)) as [|[k1 v1] m IH]; simpl in *.
      - by apply elem_of_nil in Hin'.
      - destruct (decide (k1 = k)); [discriminate|].
        apply elem_of_cons in Hin' as [?|?]; [congruence | by apply IH]. }
    apply Hnotin. by apply (list_elem_of_fmap_2 fst) in Hin.
  - intros k' Hne. unfold isConfident, removeObservedAddr.
    cbn [observed withObserved]. fold k.
    rewrite AddressManagerFacts.mapGet_mapDelete by done.
    by rewrite decide_False by congruence.
  - intros Habsent.
    assert (Hget : mapGet k (observed s) = None)
      by by apply AddressManagerFacts.mapGet_None.
    unfold addObservedAddr, mapHas. fold k. rewrite Hget.
    unfold removeObservedAddr. cbn [peerId observed withObserved]. fold k.
    rewrite (mapSet_absent _ _ _ Hget), (mapDelete_snoc _ _ _ Hget).
    by destruct s.
Qed.

Lemma remove_observed_witness :
  let s := create "Self" [] [] None in
  let a := ip4tcp "1.2.3.4" "4001" in
  let k := stripPeerId a (peerId s) in
  (k ∉ getObservedAddrs (removeObservedAddr s a)) /\
  (forall k', k' ≠ k ->
     isConfident (removeObservedAddr s a) k' = isConfident s k') /\
  (k ∉ getObservedAddrs s -> removeObservedAddr (addObservedAddr s a) a = s).
Proof.
  apply (remove_observed (create "Self" [] [] None) (ip4tcp "1.2.3.4" "4001")).
  apply NoDup_nil_2.
Defined.



(** *** DNS mappings *)

Lemma mapSet_app_absent {K V} `{EqDecision K} (m e : list (K * V)) k v :
  mapGet k m = None -> mapSet k v (m ++ e) = m ++ mapSet k v e.
Proof.
  induction m as [|[k0 v0] m IH]; simpl; [done|].
  destruct (decide (k0 = k)); [discriminate|]. intros H. by rewrite IH.
Qed.

Lemma mapSet_values {K V} `{EqDecision K} (e : list (K * V)) k v :
  Forall (fun x => x.2 = v) e -> Forall (fun x => x.2 = v) (mapSet k v e).
Proof.
  induction e as [|[k0 v0] e IH]; simpl; intros Hall.
  - by repeat constructor.
  - apply Forall_cons in Hall as [Hv Hall].
    destruct (decide (k0 = k)); constructor; eauto.
Qed.

Lemma addDNSMapping_extends (m : list (string * string)) d ips :
  (forall ip, ip ∈ ips -> mapGet ip m = None) ->
  exists e, foldl (fun m ip => mapSet ip d m) m ips = m ++ e /\
            Forall (fun x => x.2 = d) e.
Proof.
  intros Hfresh.
  assert (H : forall e, Forall (fun x => x.2 = d) e ->
                        exists e', foldl (fun m ip => mapSet ip d m) (m ++ e) ips = m ++ e' /\
                                   Forall (fun x => x.2 = d) e').
  { induction ips as [|ip ips IH]; intros e He; simpl; [eauto|].
    rewrite mapSet_app_absent by apply Hfresh, list_elem_of_here.
    apply IH; [|by apply mapSet_values].
    intros ip' Hip'. by apply Hfresh, list_elem_of_further. }
  destruct (H [] (Forall_nil_2 _)) as (e & He & Hall).
  rewrite app_nil_r in He. eauto.
Qed.

(** X16. After [removeDNSMapping(domain)] no ip is mapped to the domain;
    and adding a mapping for ips that were not mapped, to a domain that no
    ip was mapped to, and removing the mapping of that domain again gives
    back the manager as it was. *)
Theorem dns_mapping_removed s domain :
  (forall ip, mapGet ip (ipDomainMappings (removeDNSMapping s domain)) ≠ Some domain) /\
  (forall addresses,
     (forall ip, ip ∈ addresses -> mapGet ip (ipDomainMappings s) = None) ->
     (forall e, e ∈ ipDomainMappings s -> e.2 ≠ domain) ->
     removeDNSMapping (addDNSMapping s domain addresses) domain = s).
Proof.
  split.
  - intros ip Hget. apply mapGet_elem in Hget.
    unfold removeDNSMapping in Hget. cbn [ipDomainMappings withMappings] in Hget.
    apply list_elem_of_filter in Hget as [Hne _]. by apply Hne.
  - intros addresses Hfresh Hother.
    unfold removeDNSMapping, addDNSMapping. cbn [ipDomainMappings withMappings].
    destruct (addDNSMapping_extends (ipDomainMappings s) domain addresses Hfresh)
      as (e & -> & He).
    rewrite filter_app, (DialQueueRunsFacts.filter_all _ (ipDomainMappings s)) by done.
    assert (Hnil : filter (fun e0 : string * string => e0.2 ≠ domain) e = []).
    { clear -He. induction e as [|x e IH]; [done|].
      apply Forall_cons in He as [Hx He].
      rewrite filter_cons_False by (intros H; by apply H). by apply IH. }
    rewrite Hnil, app_nil_r. by destruct s.
Qed.

End AddressManagerUpdatesFacts.

(** ** Identify service: further properties *)

Module IdentifyPushFacts.
Import JsMap Identify IdentifyPush.

Section WithPrinter.

Variable toString : Multiaddr -> string.

(** What [identify] does to the components, by the way it ends. *)
Lemma identify_cases svc w connection read :
  let r := identify toString svc w connection read in
  (r.1.1 = w /\ exists err, r.2 = inl err) \/
  (exists message key,
     read = Decoded message /\
     publicKey message = Some key /\
     peerIdFromKeys svc key = inr (remotePeer connection) /\
     selfPeerId svc ≠ remotePeer connection /\
     let am := storeObserved svc (addressManager w)
                 (getCleanMultiaddr (observedAddr message)) in
     let c := consumeIdentifyMessage toString (peerStore w) (remotePeer connection) message in
     (r.1.1 = mkWorld c.1 am (events w) (logged w) /\ exists err, r.2 = inl err) \/
     (exists signed listen observed,
        c.2 = inr signed /\
        r.2 = inr tt /\
        r.1.1 = mkWorld c.1 am
                  (events w ++ [mkResult (remotePeer connection) (protocolVersion message)
                                  (agentVersion message) (publicKey message) listen observed
                                  (protocols message) signed])
                  (logged w))).
Proof.
  intros r. subst r. unfold identify.
  pose proof (IdentifyFacts._identify_connection connection read) as Hc.
  destruct (_identify connection read) as [c received] eqn:Hid. simpl in Hc. subst c.
  destruct received as [err|message]; [left; eauto|].
  assert (read = Decoded message) as ->.
  { destruct read; simpl in Hid; try discriminate. by injection Hid as _ ->. }
  destruct (publicKey message) as [key|] eqn:Hkey; [|left; eauto].
  destruct (peerIdFromKeys svc key) as [err|id] eqn:Hfrom; [left; eauto|].
  destruct (decide (remotePeer connection ≠ id)) as [Hne|Heq]; [left; eauto|].
  assert (id = remotePeer connection) as ->
    by (destruct (decide (remotePeer connection = id)); done).
  destruct (decide (selfPeerId svc = remotePeer connection)) as [Hs|Hns]; [left; eauto|].
  right. exists message, key. split; [done|]. split; [done|]. split; [done|].
  split; [done|]. cbn zeta.
  destruct (consumeIdentifyMessage toString (peerStore w) (remotePeer connection) message)
    as [store [err|signed]]; cbn [fst snd]; [left; eauto|].
  destruct (parseAll (listenAddrs message)) as [err|listen]; [left; eauto|].
  destruct (observedAddr message) as [[n [ma|]]|]; cbn [bufAddr].
  - right. rewrite <- Hkey. eauto 10.
  - left. eauto.
  - right. rewrite <- Hkey. eauto 10.
Qed.

Lemma consume_inr store P m store' out :
  consumeIdentifyMessage toString store P m = (store', inr out) ->
  exists data, store' = patch toString store P data /\
               dataProtocols data = protocols m /\
               (signedPeerRecord m = None ->
                exists listen, parseAll (listenAddrs m) = inr listen /\
                               dataAddresses data = map (fun ma => mkAddress ma false) listen).
Proof.
  unfold consumeIdentifyMessage.
  destruct (parseAll (listenAddrs m)) as [err|listen]; [discriminate|].
  destruct (signedPeerRecord m) as [received|].
  - destruct (chooseRecord store P received) as [err|[[md e] rec]]; [discriminate|].
    intros [= <- _]. eexists. split; [reflexivity|]. split; [reflexivity|]. discriminate.
  - intros [= <- _]. eexists. split; [reflexivity|]. split; [reflexivity|]. eauto.
Qed.

(** X17. When identify succeeds on a connection, exactly one peer:identify
    event is dispatched; it names the remote peer of the connection and
    carries the protocols of the message; nothing is logged; and the entry
    of the remote peer in the peer store holds the protocols of the
    message. *)
Theorem identify_success svc w connection read w' connection' :
  identify toString svc w connection read = (w', connection', inr tt) ->
  exists message result peer,
    read = Decoded message /\
    events w' = events w ++ [result] /\
    resultPeerId result = remotePeer connection /\
    resultProtocols result = protocols message /\
    logged w' = logged w /\
    peerStore w' !! remotePeer connection = Some peer /\
    peerProtocols peer = protocols message.
Proof.
  intros H. pose proof (identify_cases svc w connection read) as Hcases.
  cbn zeta in Hcases. rewrite H in Hcases. cbn [fst snd] in Hcases.
  destruct Hcases as [[_ [err Herr]] | (message & key & -> & _ & _ & _ & Hcases)];
    [discriminate|].
  destruct Hcases as [[_ [err Herr]] | (signed & listen & observed & Hc & _ & ->)];
    [discriminate|].
  destruct (consumeIdentifyMessage toString (peerStore w) (remotePeer connection) message)
    as [store r] eqn:Hcons. cbn [fst snd] in *. subst r.
  apply consume_inr in Hcons as (data & -> & Hprot & _).
  eexists message, _, _. split; [done|]. split; [reflexivity|].
  split; [reflexivity|]. split; [reflexivity|]. split; [reflexivity|].
  cbn [peerStore]. unfold patch. rewrite lookup_insert_eq. split; [reflexivity|].
  exact Hprot.
Qed.

(** X18. When identify fails, for whatever reason, no peer:identify event
    is dispatched and the connection is left as it was. *)
Theorem identify_failure_no_event svc w connection read w' connection' err :
  identify toString svc w connection read = (w', connection', inl err) ->
  events w' = events w /\ logged w' = logged w /\ connection' = connection.
Proof.
  intros H. pose proof (identify_cases svc w connection read) as Hcases.
  pose proof (IdentifyFacts.identify_connection toString svc w connection read) as Hconn.
  cbn zeta in Hcases. rewrite H in Hcases, Hconn. cbn [fst snd] in Hcases, Hconn.
  split; [|split; [|done]].
  - destruct Hcases as [[-> _] | (message & key & _ & _ & _ & _ & Hcases)]; [done|].
    destruct Hcases as [[-> _] | (signed & listen & observed & _ & Hr & _)];
      [done | discriminate].
  - destruct Hcases as [[-> _] | (message & key & _ & _ & _ & _ & Hcases)]; [done|].
    destruct Hcases as [[-> _] | (signed & listen & observed & _ & Hr & _)];
      [done | discriminate].
Qed.




End WithPrinter.


Lemma identify_success_witness :
  exists message result peer,
    Decoded (messageWithKey (Some "P")) = Decoded message /\
    events
      (mkWorld
         (patch Multiaddr.toString ∅ "P"
            (mkPeerData [] ["/ipfs/id/1.0.0"]
               [("AgentVersion", "js-libp2p"); ("ProtocolVersion", "ipfs/0.1.0")] None))
         (addressManager emptyWorld)
         [mkResult "P" (Some "ipfs/0.1.0") (Some "js-libp2p") (Some "P") [] None
            ["/ipfs/id/1.0.0"] None] [])
    = events emptyWorld ++ [result] /\
    resultPeerId result = "P" /\
    resultProtocols result = protocols message /\
    logged
      (mkWorld
         (patch Multiaddr.toString ∅ "P"
            (mkPeerData [] ["/ipfs/id/1.0.0"]
               [("AgentVersion", "js-libp2p"); ("ProtocolVersion", "ipfs/0.1.0")] None))
         (addressManager emptyWorld)
         [mkResult "P" (Some "ipfs/0.1.0") (Some "js-libp2p") (Some "P") [] None
            ["/ipfs/id/1.0.0"] None] [])
    = logged emptyWorld /\
    patch Multiaddr.toString ∅ "P"
      (mkPeerData [] ["/ipfs/id/1.0.0"]
         [("AgentVersion", "js-libp2p"); ("ProtocolVersion", "ipfs/0.1.0")] None)
    !! "P" = Some peer /\
    peerProtocols peer = protocols message.
Proof.
  apply (identify_success Multiaddr.toString keyService emptyWorld
           (mkConnection "P" open 0) (Decoded (messageWithKey (Some "P")))
           (mkWorld
              (patch Multiaddr.toString ∅ "P"
                 (mkPeerData [] ["/ipfs/id/1.0.0"]
                    [("AgentVersion", "js-libp2p"); ("ProtocolVersion", "ipfs/0.1.0")] None))
              (addressManager emptyWorld)
              [mkResult "P" (Some "ipfs/0.1.0") (Some "js-libp2p") (Some "P") [] None
                 ["/ipfs/id/1.0.0"] None] [])
           (mkConnection "P" open 0)).
  reflexivity.
Defined.

Lemma identify_failure_no_event_witness :
  events emptyWorld = events emptyWorld /\ logged emptyWorld = logged emptyWorld /\
  mkConnection "P" open 0 = mkConnection "P" open 0.
Proof.
  apply (identify_failure_no_event Multiaddr.toString exampleService emptyWorld
           (mkConnection "P" open 0) NoData emptyWorld (mkConnection "P" open 0)
           (CodeError "No data could be retrieved" ERR_CONNECTION_ENDED)).
  reflexivity.
Defined.

(** X20. An observed address that cannot be parsed makes identify fail
    only after the message was consumed: the peer store holds the update of
    the message, but no peer:identify event is dispatched and the address
    manager is not touched. *)
Theorem unparseable_observedAddr toString svc w connection message key buf store signed :
  publicKey message = Some key ->
  peerIdFromKeys svc key = inr (remotePeer connection) ->
  selfPeerId svc ≠ remotePeer connection ->
  observedAddr message = Some buf ->
  bufAddr buf = None ->
  consumeIdentifyMessage toString (peerStore w) (remotePeer connection) message
  = (store, inr signed) ->
  exists err,
    identify toString svc w connection (Decoded message)
    = (mkWorld store (addressManager w) (events w) (logged w), connection, inl err).
Proof.
  intros Hkey Hfrom Hself Hobs Hbuf Hcons. unfold identify.
  pose proof (IdentifyFacts._identify_connection connection (Decoded message)) as Hc.
  destruct (_identify connection (Decoded message)) as [c received] eqn:Hid.
  simpl in Hc. subst c. simpl in Hid. injection Hid as _ <-.
  rewrite Hkey, Hfrom.
  rewrite decide_False by (intros H; by apply H).
  rewrite decide_False by done.
  rewrite Hcons, Hobs. unfold getCleanMultiaddr. rewrite Hbuf.
  assert (Hclean : (if (0 <? bufLength buf)%nat then @None Multiaddr else None) = None)
    by by destruct (0 <? bufLength buf)%nat.
  rewrite Hclean. cbn [storeObserved].
  destruct (parseAll (listenAddrs message)); eauto.
Qed.

Lemma unparseable_observedAddr_witness :
  exists err,
    identify Multiaddr.toString keyService emptyWorld (mkConnection "P" open 0)
      (Decoded (messageWithBadObservedAddr "P"))
    = (mkWorld
         (patch Multiaddr.toString ∅ "P"
            (mkPeerData [mkAddress (DialQueue.tcp "1.2.3.4" "4001") false]
               ["/ipfs/id/1.0.0"] [] None))
         (addressManager emptyWorld) (events emptyWorld) (logged emptyWorld),
       mkConnection "P" open 0, inl err).
Proof.
  apply (unparseable_observedAddr Multiaddr.toString keyService emptyWorld
           (mkConnection "P" open 0) (messageWithBadObservedAddr "P") "P"
           (mkAddrBuf 3 None)
           (patch Multiaddr.toString ∅ "P"
              (mkPeerData [mkAddress (DialQueue.tcp "1.2.3.4" "4001") false]
                 ["/ipfs/id/1.0.0"] [] None))
           None).
  - reflexivity.
  - reflexivity.
  - discriminate.
  - reflexivity.
  - reflexivity.
  - reflexivity.
Defined.

(** X21. A signed peer record is refused, and the peer store left as it
    was, when the signature of its envelope does not verify, when the record
    cannot be decoded, when the peer id of the record is not the one of the
    signing key, or when it is not the remote peer the message came from. *)
Theorem foreign_record_refused toString store remotePeer message received :
  signedPeerRecord message = Some received ->
  signatureValid received = false \/
  (forall r, payload received = Some r ->
             recordPeerId r ≠ envelopePeerId received \/ recordPeerId r ≠ remotePeer) ->
  exists err,
    consumeIdentifyMessage toString store remotePeer message = (store, inl err).
Proof.
  intros Hrec Hbad. unfold consumeIdentifyMessage.
  destruct (parseAll (listenAddrs message)) as [err|listen]; [eauto|].
  rewrite Hrec.
  assert (Hchoose : exists err, chooseRecord store remotePeer received = inl err).
  { unfold chooseRecord, openAndCertify, createFromProtobuf.
    destruct (signatureValid received); simpl; [|eauto].
    destruct Hbad as [?|Hbad]; [discriminate|].
    destruct (payload received) as [r|]; simpl; [|eauto].
    destruct (decide (recordPeerId r ≠ envelopePeerId received)); [eauto|].
    destruct (decide (remotePeer ≠ recordPeerId r)) as [|Heq]; [eauto|].
    exfalso. destruct (Hbad r eq_refl) as [?|Hne]; [done|].
    apply Heq. congruence. }
  destruct Hchoose as [err ->]. eauto.
Qed.

Lemma foreign_record_refused_witness :
  exists err,
    consumeIdentifyMessage Multiaddr.toString ∅ "P"
      (recordMessage "Q" 7 [DialQueue.tcp "1.2.3.4" "4001"])
    = (∅, inl err).
Proof.
  apply (foreign_record_refused Multiaddr.toString ∅ "P"
           (recordMessage "Q" 7 [DialQueue.tcp "1.2.3.4" "4001"])
           (mkEnvelope "Q" true
              (Some (mkPeerRecord "Q" 7 [DialQueue.tcp "1.2.3.4" "4001"])))).
  - reflexivity.
  - right. intros r [= <-]. right. discriminate.
Defined.

Lemma certifiedAmong_unsigned toString (listen : list Multiaddr) s :
  DialQueue.certifiedAmong toString (map (fun ma => mkAddress ma false) listen) s = false.
Proof.
  unfold DialQueue.certifiedAmong.
  induction listen as [|ma l IH]; simpl; [done|].
  by rewrite andb_false_r, IH.
Qed.

(** X22. A message without a signed peer record is consumed when its listen
    addresses parse: the addresses stored for the peer are then listen
    addresses of the message, none of them certified, and the stored
    protocols are those of the message. *)
Theorem unsigned_message_uncertified toString store remotePeer message listen :
  signedPeerRecord message = None ->
  parseAll (listenAddrs message) = inr listen ->
  exists peer,
    consumeIdentifyMessage toString store remotePeer message
    = (<[remotePeer := peer]> store, inr None) /\
    peerProtocols peer = protocols message /\
    forall a, a ∈ addresses peer -> isCertified a = false /\ multiaddr a ∈ listen.
Proof.
  intros Hrec Hparse. unfold consumeIdentifyMessage. rewrite Hparse, Hrec.
  unfold patch. eexists. split; [reflexivity|]. split; [reflexivity|].
  cbn [addresses dataAddresses]. intros a Ha. split.
  - rewrite (DialQueueFacts.dedupe_certified toString _ a Ha).
    apply certifiedAmong_unsigned.
  - apply DialQueueFacts.dedupe_multiaddr in Ha.
    rewrite map_map in Ha. simpl in Ha. by rewrite map_id in Ha.
Qed.

Lemma unsigned_message_uncertified_witness :
  exists peer,
    consumeIdentifyMessage Multiaddr.toString ∅ "P" (messageWithBadObservedAddr "P")
    = (<["P" := peer]> ∅, inr None) /\
    peerProtocols peer = protocols (messageWithBadObservedAddr "P") /\
    forall a, a ∈ addresses peer ->
              isCertified a = false /\ multiaddr a ∈ [DialQueue.tcp "1.2.3.4" "4001"].
Proof.
  apply (unsigned_message_uncertified Multiaddr.toString ∅ "P"
           (messageWithBadObservedAddr "P") [DialQueue.tcp "1.2.3.4" "4001"]).
  - reflexivity.
  - reflexivity.
Defined.


End IdentifyPushFacts.

(** ** Peer store reads: further properties *)

Module PeerStoreReadMoreFacts.
Import PeerStoreRead.
Local Open Scope Z_scope.

Lemma collectTags_other now entries :
  forall acc key,
    key ∉ map fst entries ->
    collectTags now entries acc !! key = acc !! key.
Proof.
  induction entries as [|[k t] rest IH]; intros acc key Hnotin; simpl; [done|].
  simpl in Hnotin. apply not_elem_of_cons in Hnotin as [Hne Hnotin].
  destruct (expired now t); rewrite IH by done; [done|].
  by rewrite lookup_insert_ne.
Qed.

Lemma collectTags_elem now entries :
  forall acc key tag,
    collectTags now entries acc !! key = Some tag ->
    acc !! key = Some tag \/ ((key, tag) ∈ entries /\ expired now tag = false).
Proof.
  induction entries as [|[k t] rest IH]; intros acc key tag; simpl; [by left|].
  destruct (expired now t) eqn:Hexp; intros Hget.
  - destruct (IH _ _ _ Hget) as [?|[? ?]]; [by left|]. right. split; [by right|done].
  - destruct (IH _ _ _ Hget) as [Hacc|[? ?]]; [|right; split; [by right|done]].
    destruct (decide (k = key)) as [->|Hne].
    + rewrite lookup_insert_eq in Hacc. injection Hacc as ->.
      right. split; [by left|done].
    + rewrite lookup_insert_ne in Hacc by done. by left.
Qed.

Lemma collectTags_live_kept now entries :
  forall acc key tag,
    NoDup (map fst entries) ->
    (key, tag) ∈ entries ->
    expired now tag = false ->
    collectTags now entries acc !! key = Some tag.
Proof.
  induction entries as [|[k t] rest IH]; intros acc key tag Hnd Hin Hlive; simpl.
  - by apply elem_of_nil in Hin.
  - simpl in Hnd. apply NoDup_cons in Hnd as [Hnotin Hnd].
    apply elem_of_cons in Hin as [[= -> ->]|Hin].
    + rewrite Hlive, collectTags_other by done. apply lookup_insert_eq.
    + destruct (expired now t); by apply IH.
Qed.

(** X24. When the keys of the stored tags are distinct, the tags of the
    entry that a read returns are exactly the stored tags that have no
    expiry or an expiry that is not earlier than the time of the read, each
    under its key; a tag that expires at the very millisecond of the read is
    still returned. *)
Theorem visible_tags_are_live_tags now peerId peer key tag :
  NoDup (map fst (pbTags peer)) ->
  tags (bytesToPeer now peerId peer) !! key = Some tag <->
  (key, tag) ∈ pbTags peer /\
  match expiry tag with
  | Some e => now <= e
  | None => True
  end.
Proof.
  intros Hnd.
  assert (Hlive : expired now tag = false <->
                  match expiry tag with Some e => now <= e | None => True end).
  { unfold expired. destruct (expiry tag) as [e|]; [|done].
    rewrite Z.ltb_ge. done. }
  rewrite <- Hlive. cbn [tags bytesToPeer]. split.
  - intros Hget. apply collectTags_elem in Hget as [Hempty|?]; [|done].
    by rewrite lookup_empty in Hempty.
  - intros [Hin Hl]. by apply collectTags_live_kept.
Qed.

Lemma visible_tags_are_live_tags_witness :
  tags (bytesToPeer 1000 (mkPeerId "P" None)
          (mkPeerPB None [] [] [] [("now", mkTag 5 (Some 1000)); ("old", mkTag 7 (Some 999))]
             None)) !! "now" = Some (mkTag 5 (Some 1000)) <->
  ("now", mkTag 5 (Some 1000)) ∈ [("now", mkTag 5 (Some 1000)); ("old", mkTag 7 (Some 999))] /\
  1000 <= 1000.
Proof.
  apply (visible_tags_are_live_tags 1000 (mkPeerId "P" None)
           (mkPeerPB None [] [] [] [("now", mkTag 5 (Some 1000)); ("old", mkTag 7 (Some 999))]
              None) "now" (mkTag 5 (Some 1000))).
  simpl. apply (NoDup_cons_2 "now" ["old"]); [|apply NoDup_singleton].
  intros H. apply list_elem_of_singleton in H. discriminate.
Defined.

(** X25. Tags only ever disappear with time: when the keys of the stored
    tags are distinct, a tag that a read of some entry returns is returned,
    under the same key, by every earlier read of that entry. *)
Theorem tags_expire_monotonically now now' peerId peer key tag :
  NoDup (map fst (pbTags peer)) ->
  now <= now' ->
  tags (bytesToPeer now' peerId peer) !! key = Some tag ->
  tags (bytesToPeer now peerId peer) !! key = Some tag.
Proof.
  intros Hnd Hle Hget.
  apply (visible_tags_are_live_tags now' peerId peer key tag Hnd) in Hget as [Hin Hlive].
  apply (visible_tags_are_live_tags now peerId peer key tag Hnd). split; [done|].
  destruct (expiry tag); [lia|done].
Qed.

Lemma tags_expire_monotonically_witness :
  tags (bytesToPeer 500 (mkPeerId "P" None)
          (mkPeerPB None [] [] [] [("now", mkTag 5 (Some 1000)); ("old", mkTag 7 (Some 999))]
             None)) !! "now" = Some (mkTag 5 (Some 1000)).
Proof.
  apply (tags_expire_monotonically 500 1000 (mkPeerId "P" None)
           (mkPeerPB None [] [] [] [("now", mkTag 5 (Some 1000)); ("old", mkTag 7 (Some 999))]
              None) "now" (mkTag 5 (Some 1000))).
  - simpl. apply (NoDup_cons_2 "now" ["old"]); [|apply NoDup_singleton].
    intros H. apply list_elem_of_singleton in H. discriminate.
  - lia.
  - reflexivity.
Defined.

(** X26. A read returns the peer id it was handed, with no public key
    added from the stored entry, and the stored addresses one for one in
    their order; the certified flag of an address is either true or absent,
    and it is true exactly when the stored flag is true. *)
Theorem read_addresses now peerId peer :
  id (bytesToPeer now peerId peer) = peerId /\
  map multiaddr (addresses (bytesToPeer now peerId peer))
  = map pbMultiaddr (pbAddresses peer) /\
  Forall2 (fun stored a =>
             isCertified a ≠ Some false /\
             (isCertified a = Some true <-> pbIsCertified stored = Some true))
          (pbAddresses peer) (addresses (bytesToPeer now peerId peer)).
Proof.
  split; [|split].
  - cbn [id bytesToPeer]. destruct peerId as [p k].
    by destruct (pbPublicKey peer), k.
  - cbn [addresses bytesToPeer]. by rewrite map_map.
  - cbn [addresses bytesToPeer]. apply Forall2_fmap_r, Forall_Forall2_diag.
    apply Forall_forall. intros stored _. unfold toAddress, compose. cbn [isCertified].
    destruct (decide (pbIsCertified stored = Some true)) as [Ht|Hf].
    + split; [discriminate|]. by split.
    + split; [discriminate|]. split; [discriminate | by intros].
Qed.

End PeerStoreReadMoreFacts.

(** ** Node lifecycle: further properties *)

Module Libp2pNodeRunsFacts.
Import Libp2pNode Libp2pNodeRuns.



Example failed_start_stops_again :
  start failingNode
  = (mkNode false [recorder "identify"; failing "tcp"] ["self"]
       ["start identify"; "start tcp"; "stop identify"; "stop tcp"],
     Some (PlainError "address already in use")).
Proof. reflexivity. Qed.

End Libp2pNodeRunsFacts.

(** ** Dial queue: aborted dials and distinct addresses *)

Module DialQueueAbortFacts.
Import DialQueue DialQueueAbort.



Lemma dedupeStep_new toString acc a :
  toString (multiaddr a) ∉ map (fun x => toString (multiaddr x)) acc ->
  dedupeStep toString acc a = acc ++ [a].
Proof.
  induction acc as [|e acc IH]; simpl; [done|].
  rewrite not_elem_of_cons. intros [Hne Hnotin].
  rewrite decide_False by congruence. by rewrite IH.
Qed.

Lemma foldl_dedupe_distinct toString l :
  forall acc,
    NoDup (map (fun x => toString (multiaddr x)) (acc ++ l)) ->
    foldl (dedupeStep toString) acc l = acc ++ l.
Proof.
  induction l as [|a l IH]; intros acc Hnd; simpl; [by rewrite app_nil_r|].
  assert (Ha : toString (multiaddr a) ∉ map (fun x => toString (multiaddr x)) acc).
  { rewrite map_app in Hnd. apply NoDup_app in Hnd as (_ & Hdisj & _).
    intros Hin. apply (Hdisj _ Hin). apply list_elem_of_here. }
  rewrite (dedupeStep_new _ _ _ Ha), IH; [by rewrite <- app_assoc|].
  by rewrite <- app_assoc.
Qed.

(** X29. Deduplication changes nothing of a list of addresses whose string
    forms are distinct: their order and their certified flags are kept; so
    deduplicating twice is deduplicating once. *)
Theorem dedupe_distinct toString l :
  (NoDup (map (fun x => toString (multiaddr x)) l) -> dedupe toString l = l) /\
  dedupe toString (dedupe toString l) = dedupe toString l.
Proof.
  assert (H : forall k, NoDup (map (fun x => toString (multiaddr x)) k) ->
                        dedupe toString k = k).
  { intros k Hnd. apply (foldl_dedupe_distinct toString k []). exact Hnd. }
  split; [apply H|]. apply H, DialQueueFacts.dedupe_NoDup.
Qed.

End DialQueueAbortFacts.
